(** * zodkit maintenance scripts: fix-eslint-errors.py and fix-unused-params.py

    A shallow embedding of the two scripts and the properties of their
    line-oriented, diagnostic-driven text patchers.

    Conventions of the model.
    - A Python [str] is a [list ascii]; a character is a code point below
      256, and the classes [\s], [\w], [\d] follow Python's Unicode tables
      on that range.
    - The file system is a finite map from paths to the raw file text.
      [open(p, 'r')] reads in universal-newline mode; [open(p, 'w')]
      writes on a POSIX host, where a line feed is written as it is.
    - [print] appends a line to the standard output of the world.
    - A Python exception that is not caught ends the run: computations
      return [Ok] or [Raise], both with the world reached so far. *)

From Stdlib Require Import Ascii String ZArith Lia DecimalString Sorted.
From stdpp Require Import gmap list.

Local Open Scope list_scope.

(** ** Text *)

Abbreviation text := (list ascii).

Definition T (s : string) : text := list_ascii_of_string s.

Definition nl : ascii := ascii_of_nat 10.
Definition cr : ascii := ascii_of_nat 13.
Definition dq : ascii := ascii_of_nat 34.
Definition sq : ascii := ascii_of_nat 39.

Definition code (c : ascii) : nat := nat_of_ascii c.

Definition in_range (lo hi : nat) (c : ascii) : bool :=
  (lo <=? code c)%nat && (code c <=? hi)%nat.

Definition chr_eqb (a b : ascii) : bool := Ascii.eqb a b.

(** [\s] of a [str] pattern: [str.isspace] on code points below 256. *)
Definition is_space (c : ascii) : bool :=
  in_range 9 13 c || in_range 28 32 c || in_range 133 133 c || in_range 160 160 c.

(** [\d] of a [str] pattern: the decimal digits. *)
Definition is_digit (c : ascii) : bool := in_range 48 57 c.

(** [\w] of a [str] pattern: alphanumeric code points and the underscore. *)
Definition is_word (c : ascii) : bool :=
  in_range 48 57 c || in_range 65 90 c || in_range 95 95 c || in_range 97 122 c
  || in_range 170 170 c || in_range 178 179 c || in_range 181 181 c
  || in_range 185 186 c || in_range 188 190 c || in_range 192 214 c
  || in_range 216 246 c || in_range 248 255 c.

(** [.] without DOTALL: anything but a line feed. *)
Definition is_dot (c : ascii) : bool := negb (chr_eqb c nl).

Definition one_of (cs : text) (c : ascii) : bool := existsb (chr_eqb c) cs.
Definition none_of (cs : text) (c : ascii) : bool := negb (one_of cs c).

(** ** Regular expressions

    The fragment of Python's [re] syntax the two scripts use: literals,
    classes, repetition of a class (greedy or lazy), concatenation,
    capturing groups, [^], [$], [\b] and a lookahead. *)

Inductive greed := Greedy | Lazy.

Inductive re :=
| Eps
| Chr (c : ascii)
| Cls (p : ascii -> bool)
| Rep (p : ascii -> bool) (min : nat) (g : greed)
| Cat (r1 r2 : re)
| Grp (i : nat) (r : re)
| Bol
| Eol
| Wb
| Ahead (r : re).

Definition cat (rs : list re) : re := foldr Cat Eps rs.
Definition lit (s : text) : re := cat (map Chr s).
Definition many (p : ascii -> bool) : re := Rep p 0 Greedy.
Definition many1 (p : ascii -> bool) : re := Rep p 1 Greedy.
Definition few (p : ascii -> bool) : re := Rep p 0 Lazy.
Definition few1 (p : ascii -> bool) : re := Rep p 1 Lazy.

(** The captures of a match, most recent first. *)
Definition caps := list (nat * text).

Fixpoint group (i : nat) (cs : caps) : text :=
  match cs with
  | [] => []
  | (j, s) :: cs' => if (i =? j)%nat then s else group i cs'
  end.

(** A position of the matcher: the character before it (for [^] and [\b]),
    the text from it on, and the captures so far. *)
Record mstate := MState { m_prev : option ascii; m_rest : text; m_caps : caps }.

Definition kont := option ascii -> text -> caps -> option mstate.

Definition word_opt (o : option ascii) : bool :=
  match o with Some c => is_word c | None => false end.

Definition at_boundary (prev : option ascii) (s : text) : bool :=
  xorb (word_opt prev) (word_opt (head s)).

Definition at_eol (s : text) : bool :=
  match s with
  | [] => true
  | c :: [] => chr_eqb c nl
  | _ => false
  end.

(** Repetition of a class with backtracking: the greedy form tries one
    more character before it tries to stop, the lazy form the reverse. *)
Fixpoint rep (p : ascii -> bool) (min : nat) (g : greed)
    (prev : option ascii) (s : text) (cs : caps) (k : kont) {struct s}
    : option mstate :=
  match g with
  | Greedy =>
      match
        match s with
        | c :: s' => if p c then rep p (pred min) g (Some c) s' cs k else None
        | [] => None
        end
      with
      | Some st => Some st
      | None => match min with O => k prev s cs | S _ => None end
      end
  | Lazy =>
      match
        match min with O => k prev s cs | S _ => None end
      with
      | Some st => Some st
      | None =>
          match s with
          | c :: s' => if p c then rep p (pred min) g (Some c) s' cs k else None
          | [] => None
          end
      end
  end.

(** The backtracking matcher, in continuation-passing style: [k] is the
    rest of the pattern, and the first success in Python's order wins. *)
Fixpoint go (r : re) (prev : option ascii) (s : text) (cs : caps) (k : kont)
    {struct r} : option mstate :=
  match r with
  | Eps => k prev s cs
  | Chr c =>
      match s with
      | x :: s' => if chr_eqb x c then k (Some x) s' cs else None
      | [] => None
      end
  | Cls p =>
      match s with
      | x :: s' => if p x then k (Some x) s' cs else None
      | [] => None
      end
  | Rep p min g => rep p min g prev s cs k
  | Cat r1 r2 => go r1 prev s cs (fun prev' s' cs' => go r2 prev' s' cs' k)
  | Grp i r1 =>
      go r1 prev s cs
         (fun prev' s' cs' =>
            k prev' s' ((i, take (length s - length s') s) :: cs'))
  | Bol => match prev with None => k prev s cs | Some _ => None end
  | Eol => if at_eol s then k prev s cs else None
  | Wb => if at_boundary prev s then k prev s cs else None
  | Ahead r1 =>
      match go r1 prev s cs (fun p' s' cs' => Some (MState p' s' cs')) with
      | Some st => k prev s (m_caps st)
      | None => None
      end
  end.

Definition accept : kont := fun p s cs => Some (MState p s cs).

(** [re.match(pattern, s)]: a match at the start of [s]. *)
Definition re_match (r : re) (s : text) : option mstate := go r None s [] accept.

(** One attempt of [re.sub]'s search at a position; [adv] is the
    must-advance flag that refuses an empty match there.  The result is
    the number of characters matched and the captures. *)
Definition try_match (r : re) (adv : bool) (prev : option ascii) (s : text)
    : option (nat * caps) :=
  match
    go r prev s []
       (fun p s' cs =>
          if adv && (length s' =? length s)%nat then None else Some (MState p s' cs))
  with
  | Some st => Some (length s - length (m_rest st), m_caps st)
  | None => None
  end.

(** Replacement templates: literal text and group references. *)
Inductive titem := TLit (s : text) | TRef (i : nat).

Definition expand (tpl : list titem) (cs : caps) : text :=
  concat (map (fun it => match it with TLit s => s | TRef i => group i cs end) tpl).

(** [re.sub(pattern, repl, s)].  [skip] counts the characters of the
    current match still to pass over; with [skip = 0] the search tries the
    pattern at this position.  After an empty match the position is tried
    once more with the must-advance flag, then the character is copied. *)
Fixpoint sub_at (r : re) (tpl : list titem) (skip : nat)
    (prev : option ascii) (s : text) {struct s} : text :=
  match skip with
  | S n =>
      match s with
      | c :: s' => sub_at r tpl n (Some c) s'
      | [] => []
      end
  | O =>
      match try_match r false prev s with
      | Some (S n, cs) =>
          expand tpl cs ++
          match s with c :: s' => sub_at r tpl n (Some c) s' | [] => [] end
      | Some (O, cs) =>
          expand tpl cs ++
          match try_match r true prev s with
          | Some (S n, cs') =>
              expand tpl cs' ++
              match s with c :: s' => sub_at r tpl n (Some c) s' | [] => [] end
          | _ =>
              match s with c :: s' => c :: sub_at r tpl 0 (Some c) s' | [] => [] end
          end
      | None =>
          match s with c :: s' => c :: sub_at r tpl 0 (Some c) s' | [] => [] end
      end
  end.

Definition re_sub (r : re) (tpl : list titem) (s : text) : text :=
  sub_at r tpl 0 None s.

(** ** The world: files and standard output *)

Record world := World { files : gmap text text; out : list text }.

Inductive exn := FileNotFoundError | IndexError | JSONDecodeError.

Inductive outcome (A : Type) :=
| Ok (a : A) (w : world)
| Raise (e : exn) (w : world).
Arguments Ok {A} a w.
Arguments Raise {A} e w.

Definition M (A : Type) := world -> outcome A.

Definition ret {A} (a : A) : M A := fun w => Ok a w.
Definition raise {A} (e : exn) : M A := fun w => Raise e w.
Definition bind {A B} (m : M A) (k : A -> M B) : M B :=
  fun w => match m w with Ok a w' => k a w' | Raise e w' => Raise e w' end.

Notation "'do' x <- m ; k" := (bind m (fun x => k))
  (at level 10, x name, m at level 100, k at level 200).
Notation "m ;; k" := (bind m (fun _ => k))
  (at level 100, k at level 200, right associativity).

(** [for x in xs: body(x)] *)
Fixpoint for_each {A} (xs : list A) (body : A -> M unit) : M unit :=
  match xs with
  | [] => ret tt
  | x :: xs' => body x ;; for_each xs' body
  end.

Definition print (s : text) : M unit :=
  fun w => Ok tt (World (files w) (out w ++ [s])).

(** Universal newlines on reading: CR LF and a lone CR become LF. *)
Fixpoint universal_newlines (s : text) : text :=
  match s with
  | [] => []
  | c :: s' =>
      if chr_eqb c cr then
        nl :: match s' with
              | d :: s'' =>
                  if chr_eqb d nl then universal_newlines s'' else universal_newlines s'
              | [] => []
              end
      else c :: universal_newlines s'
  end.

(** [open(p, 'r')] followed by [f.read()] *)
Definition read_file (p : text) : M text :=
  fun w => match files w !! p with
           | Some raw => Ok (universal_newlines raw) w
           | None => Raise FileNotFoundError w
           end.

(** [open(p, 'w')] followed by [f.write(s)] *)
Definition write_file (p : text) (s : text) : M unit :=
  fun w => Ok tt (World (<[p := s]> (files w)) (out w)).

(** [os.path.exists(p)] *)
Definition path_exists (p : text) : M bool :=
  fun w => Ok (bool_decide (is_Some (files w !! p))) w.

(** The lines of a text as [f.readlines()] gives them: each keeps its
    line feed, a last line without one is kept as it is. *)
Fixpoint readlines (s : text) : list text :=
  match s with
  | [] => []
  | c :: s' =>
      if chr_eqb c nl then [c] :: readlines s'
      else match readlines s' with
           | [] => [[c]]
           | l :: ls => (c :: l) :: ls
           end
  end.

(** [f.writelines(lines)] writes the concatenation. *)
Definition writelines (p : text) (lines : list text) : M unit :=
  write_file p (concat lines).

(** [lines[i]] with Python's indexing: a negative index counts from the
    end; out of range is an IndexError. *)
Definition py_index (n : nat) (i : Z) : option nat :=
  if ((0 <=? i) && (i <? Z.of_nat n))%Z then Some (Z.to_nat i)
  else if ((- Z.of_nat n <=? i) && (i <? 0))%Z then Some (Z.to_nat (i + Z.of_nat n))
  else None.

(** [os.path.basename(p)] on a POSIX host *)
Fixpoint basename_acc (acc : text) (p : text) : text :=
  match p with
  | [] => acc
  | c :: p' => if chr_eqb c "/" then basename_acc [] p' else basename_acc (acc ++ [c]) p'
  end.
Definition basename (p : text) : text := basename_acc [] p.

(** [str(n)] for a natural number *)
Definition show_nat (n : nat) : text := T (NilZero.string_of_uint (Nat.to_uint n)).

Definition matches (r : re) (s : text) : bool :=
  match re_match r s with Some _ => true | None => false end.

(** * fix-eslint-errors.py *)

Module FixEslintErrors.

(** One message and one file entry of ESLint's JSON report. *)
Record message := Message {
  severity : Z; line : Z; ruleId : option text; msg_text : text }.
Record file_result := FileResult { filePath : text; messages : list message }.

(** The dictionaries built by [get_eslint_errors]. *)
Record diag := Diag {
  d_file : text; d_line : Z; d_rule : option text; d_message : text }.

Definition errors_of_report (data : list file_result) : list diag :=
  flat_map
    (fun fr =>
       flat_map
         (fun m =>
            if (severity m =? 2)%Z
            then [Diag (filePath fr) (line m) (ruleId m) (msg_text m)]
            else [])
         (messages fr))
    data.

Section Eslint.

(** The external command and [json.loads]: the decoded report of the
    linter on the current files, [None] when its output is not JSON. *)
Variable eslint : gmap text text -> option (list file_result).

Definition get_eslint_errors : M (list diag) :=
  fun w => match eslint (files w) with
           | Some data => Ok (errors_of_report data) w
           | None => Raise JSONDecodeError w
           end.

Definition has_rule (rule : text) (e : diag) : bool :=
  bool_decide (d_rule e = Some rule).

(** [files_to_fix]: a dictionary in insertion order. *)
Fixpoint dict_append (k : text) (e : diag) (d : list (text * list diag))
    : list (text * list diag) :=
  match d with
  | [] => [(k, [e])]
  | (k', es) :: d' =>
      if bool_decide (k = k') then (k', es ++ [e]) :: d'
      else (k', es) :: dict_append k e d'
  end.

Definition group_by_file (errs : list diag) : list (text * list diag) :=
  foldl (fun d e => dict_append (d_file e) e d) [] errs.

(** [file_errors.sort(key=lambda x: x['line'], reverse=True)]: a stable
    sort by line number, highest first. *)
Fixpoint insert_desc (e : diag) (l : list diag) : list diag :=
  match l with
  | [] => [e]
  | x :: l' =>
      if (d_line x <=? d_line e)%Z then e :: x :: l' else x :: insert_desc e l'
  end.

Definition sort_desc (l : list diag) : list diag := foldr insert_desc [] l.

(** The five patterns for unused declarations, in the order of the source. *)
Definition pat_const : re :=
  cat [Bol; many is_space; lit (T "const"); many1 is_space; many1 is_word;
       many is_space; Chr "="; few is_dot; Chr ";"; many is_space; Eol].
Definition pat_let : re :=
  cat [Bol; many is_space; lit (T "let"); many1 is_space; many1 is_word;
       many is_space; Chr "="; few is_dot; Chr ";"; many is_space; Eol].
Definition pat_var : re :=
  cat [Bol; many is_space; lit (T "var"); many1 is_space; many1 is_word;
       many is_space; Chr "="; few is_dot; Chr ";"; many is_space; Eol].
Definition pat_import_braces : re :=
  cat [Bol; many is_space; lit (T "import"); many is_space; Chr "{";
       many (none_of (T "}")); Chr "}"; many is_space; lit (T "from");
       few is_dot; Chr ";"; many is_space; Eol].
Definition pat_import_default : re :=
  cat [Bol; many is_space; lit (T "import"); many1 is_space; many1 is_word;
       many1 is_space; lit (T "from"); few is_dot; Chr ";"; many is_space; Eol].

Definition patterns : list re :=
  [pat_const; pat_let; pat_var; pat_import_braces; pat_import_default].

(** [for pattern in patterns: if re.match(pattern, line): ... break] *)
Fixpoint first_match (ps : list re) (l : text) : bool :=
  match ps with
  | [] => false
  | p :: ps' => if matches p l then true else first_match ps' l
  end.

(** The body of the loop over one file's diagnostics, on the buffer. *)
Definition patch_line (lines : list text) (e : diag) : option (list text) :=
  match py_index (length lines) (d_line e - 1) with
  | None => None
  | Some i =>
      match lines !! i with
      | None => None
      | Some l => if first_match patterns l then Some (<[i := []]> lines) else Some lines
      end
  end.

Fixpoint patch_lines (lines : list text) (es : list diag) : option (list text) :=
  match es with
  | [] => Some lines
  | e :: es' =>
      match patch_line lines e with
      | Some lines' => patch_lines lines' es'
      | None => None
      end
  end.

Definition unused_rule : text := T "@typescript-eslint/no-unused-vars".
Definition require_rule : text := T "@typescript-eslint/no-require-imports".

Definition fix_unused_file (file_path : text) (file_errors : list diag) : M unit :=
  print (T "Fixing unused vars in " ++ basename file_path ++ T "...") ;;
  do content <- read_file file_path ;
  match patch_lines (readlines content) (sort_desc file_errors) with
  | Some lines => writelines file_path lines
  | None => raise IndexError
  end.

Definition fix_unused_vars (errors : list diag) : M unit :=
  let unused_vars := filter (fun e => has_rule unused_rule e = true) errors in
  for_each (group_by_file unused_vars)
           (fun '(file_path, file_errors) => fix_unused_file file_path file_errors).

(** The three substitutions of the require-to-import pass. *)
Definition quote : ascii -> bool := one_of [sq; dq].
Definition not_quote : ascii -> bool := none_of [sq; dq].

Definition pat_require : re :=
  cat [lit (T "const"); many1 is_space; Grp 1 (many1 is_word); many is_space;
       Chr "="; many is_space; lit (T "require("); Cls quote;
       Grp 2 (many1 not_quote); Cls quote; Chr ")"].
Definition tpl_require : list titem :=
  [TLit (T "import "); TRef 1; TLit (T " from " ++ [dq]); TRef 2; TLit [dq]].

Definition pat_require_braces : re :=
  cat [lit (T "const"); many1 is_space; Chr "{"; Grp 1 (many1 (none_of (T "}")));
       Chr "}"; many is_space; Chr "="; many is_space; lit (T "require(");
       Cls quote; Grp 2 (many1 not_quote); Cls quote; Chr ")"].
Definition tpl_require_braces : list titem :=
  [TLit (T "import { "); TRef 1; TLit (T " } from " ++ [dq]); TRef 2; TLit [dq]].

Definition pat_dynamic_import : re :=
  cat [lit (T "import("); Cls quote; Grp 1 (many1 not_quote); Cls quote; Chr ")"].
Definition tpl_dynamic_import : list titem :=
  [TLit (T "await import(" ++ [dq]); TRef 1; TLit (dq :: T ")")].

Definition require_patterns : list (re * list titem) :=
  [(pat_require, tpl_require);
   (pat_require_braces, tpl_require_braces);
   (pat_dynamic_import, tpl_dynamic_import)].

(** [for pattern, replacement in patterns: content = re.sub(...)] *)
Definition convert_requires (content : text) : text :=
  foldl (fun c pr => re_sub (fst pr) (snd pr) c) content require_patterns.

Definition fix_require_file (file_path : text) : M unit :=
  print (T "Fixing require imports in " ++ basename file_path ++ T "...") ;;
  do content <- read_file file_path ;
  write_file file_path (convert_requires content).

Definition fix_require_imports (errors : list diag) : M unit :=
  let require_errors := filter (fun e => has_rule require_rule e = true) errors in
  for_each (group_by_file require_errors)
           (fun '(file_path, _) => fix_require_file file_path).

Definition main : M unit :=
  print (T "🔧 Fixing ESLint errors systematically...") ;;
  do errors <- get_eslint_errors ;
  print (T "Found " ++ show_nat (length errors) ++ T " error violations") ;;
  fix_unused_vars errors ;;
  fix_require_imports errors ;;
  print (T "✅ Fixes applied. Checking remaining errors...") ;;
  do final_errors <- get_eslint_errors ;
  print (T "Remaining errors: " ++ show_nat (length final_errors)) ;;
  if (length final_errors <? length errors)%nat
  then print (T "🎉 Reduced errors by "
              ++ show_nat (length errors - length final_errors))
  else ret tt.

End Eslint.

End FixEslintErrors.

(** * fix-unused-params.py *)

Module FixUnusedParams.

(** [rf'\b{param_name}\b(?=\s*[:,)])']: the name stands for itself in the
    pattern, as it does for the names [main] passes, which match [\w+]. *)
Definition param_pattern (param_name : text) : re :=
  cat [Wb; lit param_name; Wb; Ahead (cat [many is_space; Cls (one_of (T ":,)"))])].

Definition param_template (param_name : text) : list titem :=
  [TLit ("_"%char :: param_name)].

Definition fix_unused_param (file_path : text) (line_num : Z) (param_name : text)
    : M bool :=
  do content <- read_file file_path ;
  let lines := readlines content in
  let line_idx := (line_num - 1)%Z in
  if ((line_idx <? 0) || (Z.of_nat (length lines) <=? line_idx))%Z then ret false
  else
    match lines !! Z.to_nat line_idx with
    | None => ret false
    | Some l =>
        let new_line := re_sub (param_pattern param_name) (param_template param_name) l in
        if bool_decide (new_line <> l) then
          writelines file_path (<[Z.to_nat line_idx := new_line]> lines) ;;
          ret true
        else ret false
    end.

(** The format of a compiler line:
    [(.+?)\((\d+),(\d+)\): error TS6133: '(\w+)' is declared but its value is never read\.] *)
Definition diag_pattern : re :=
  cat [Grp 1 (few1 is_dot); Chr "("; Grp 2 (many1 is_digit); Chr ",";
       Grp 3 (many1 is_digit); lit (T "): error TS6133: '"); Grp 4 (many1 is_word);
       lit (T "' is declared but its value is never read"); Chr "."].

(** [int(s)] on a run of decimal digits *)
Definition int_of_digits (s : text) : Z :=
  foldl (fun acc c => (10 * acc + Z.of_nat (code c - 48))%Z) 0%Z s.

Definition show_Z (z : Z) : text := T (NilZero.string_of_int (Z.to_int z)).

(** The body of [for line in sys.stdin], with the counter as its result. *)
Definition process_line (fixes_applied : nat) (l : text) : M nat :=
  match re_match diag_pattern l with
  | Some m =>
      let file_path := group 1 (m_caps m) in
      let line_num := int_of_digits (group 2 (m_caps m)) in
      let param_name := group 4 (m_caps m) in
      do ex <- path_exists file_path ;
      if ex then
        do fixed <- fix_unused_param file_path line_num param_name ;
        if fixed then
          print (T "Fixed: " ++ file_path ++ T ":" ++ show_Z line_num
                 ++ T " - prefixed '" ++ param_name ++ T "' with underscore") ;;
          ret (S fixes_applied)
        else ret fixes_applied
      else ret fixes_applied
  | None => ret fixes_applied
  end.

Fixpoint process_lines (fixes_applied : nat) (stdin : list text) : M nat :=
  match stdin with
  | [] => ret fixes_applied
  | l :: stdin' =>
      do n <- process_line fixes_applied l ;
      process_lines n stdin'
  end.

Definition main (stdin : list text) : M unit :=
  do fixes_applied <- process_lines 0 stdin ;
  print (nl :: T "Total fixes applied: " ++ show_nat fixes_applied).

End FixUnusedParams.

(** * The vocabulary of the properties *)

Section Vocabulary.
Import FixEslintErrors FixUnusedParams.

(** ** Lines *)

(** A line that ends with its line feed, and a last line without one. *)
Definition complete_line (l : text) : Prop :=
  exists t, l = t ++ [nl] /\ Forall (fun c => c <> nl) t.

Definition partial_line (l : text) : Prop :=
  l <> [] /\ Forall (fun c => c <> nl) l.

Inductive wf_lines : list text -> Prop :=
| wf_nil : wf_lines []
| wf_last l : partial_line l -> wf_lines [l]
| wf_cons l ls : complete_line l -> wf_lines ls -> wf_lines (l :: ls).

(** ** The matcher *)

(** The character before the position reached after reading [u]. *)
Definition last_of (prev : option ascii) (u : text) : option ascii :=
  match last u with Some c => Some c | None => prev end.

(** [strip u s] removes the prefix [u] from [s]. *)
Fixpoint strip (u s : text) : option text :=
  match u with
  | [] => Some s
  | c :: u' =>
      match s with
      | x :: s' => if chr_eqb x c then strip u' s' else None
      | [] => None
      end
  end.

(** Where a run of a class stops. *)
Definition stops (p : ascii -> bool) (v : text) : Prop :=
  match v with [] => True | c :: _ => p c = false end.

Definition all_in (p : ascii -> bool) (u : text) : Prop :=
  Forall (fun c => p c = true) u.

Definition nonempty (s : text) : Prop := s <> [].

(** What a pattern can match: [den r prev s prev' s'] says that [r] can
    read [s] down to its suffix [s'], [prev'] being the character before
    [s']. *)
Fixpoint den (r : re) (prev : option ascii) (s : text)
    (prev' : option ascii) (s' : text) : Prop :=
  match r with
  | Eps => s' = s /\ prev' = prev
  | Chr c => s = c :: s' /\ prev' = Some c
  | Cls p => exists x, s = x :: s' /\ p x = true /\ prev' = Some x
  | Rep p min _ =>
      exists u, s = u ++ s' /\ all_in p u /\ min <= length u /\ prev' = last_of prev u
  | Cat r1 r2 => exists pm sm, den r1 prev s pm sm /\ den r2 pm sm prev' s'
  | Grp _ r1 => den r1 prev s prev' s'
  | Bol => prev = None /\ s' = s /\ prev' = prev
  | Eol => at_eol s = true /\ s' = s /\ prev' = prev
  | Wb => at_boundary prev s = true /\ s' = s /\ prev' = prev
  | Ahead r1 => (exists p2 s2, den r1 prev s p2 s2) /\ s' = s /\ prev' = prev
  end.


(** Whether [s] occurs in [t]. *)
Fixpoint starts_with (s t : text) : bool :=
  match s, t with
  | [], _ => true
  | c :: s', d :: t' => chr_eqb c d && starts_with s' t'
  | _ :: _, [] => false
  end.

Fixpoint occurs_in (s t : text) : bool :=
  starts_with s t || match t with [] => false | _ :: t' => occurs_in s t' end.

(** [s] does not occur in [t]. *)
Definition absent (s t : text) : Prop := occurs_in s t = false.

(** No proper end of [s] begins [y]: an occurrence of [s] cannot start
    before [y] and run into it. *)
Definition no_overlap (s y : text) : Prop :=
  forall j, 1 <= j < length s -> starts_with (drop j s) y = false.

(** ** The unused-declaration patcher *)

(** Whether some diagnostic of [es] points at entry [i] of a buffer of
    [n] lines. *)
Definition flagged (n : nat) (es : list diag) (i : nat) : bool :=
  existsb (fun e => bool_decide (py_index n (d_line e - 1) = Some i)) es.

Definition line_ge (a b : diag) : Prop := (d_line b <= d_line a)%Z.

Definition unused_banner (p : text) : text :=
  T "Fixing unused vars in " ++ basename p ++ T "...".

(** ** The require-to-import pass *)

(** The number of quote characters of a text. *)
Fixpoint nquotes (s : text) : nat :=
  match s with
  | [] => 0
  | c :: s' => (if quote c then 1 else 0) + nquotes s'
  end.



(** ** The summary *)

Definition appends {A} (m : M A) : Prop :=
  forall w, exists msgs,
    match m w with
    | Ok _ w' => out w' = out w ++ msgs
    | Raise _ w' => out w' = out w ++ msgs
    end.

(** The lines of the summary. *)
Definition line_start : text := T "🔧 Fixing ESLint errors systematically...".
Definition line_found (n : nat) : text :=
  T "Found " ++ show_nat n ++ T " error violations".
Definition line_checking : text := T "✅ Fixes applied. Checking remaining errors...".
Definition line_remaining (n : nat) : text := T "Remaining errors: " ++ show_nat n.
Definition line_reduced (n : nat) : text := T "🎉 Reduced errors by " ++ show_nat n.

(** The two patch passes of [main], one after the other. *)
Definition patches (errors : list diag) : M unit :=
  fix_unused_vars errors ;; fix_require_imports errors.

(** ** The parameter fix *)

(** A parameter name as [main] passes it: a non-empty run of word
    characters. *)
Definition word_name (name : text) : Prop := name <> [] /\ all_in is_word name.

Definition punct : ascii -> bool := one_of (T ":,)").

(** The lookahead [(?=\s*[:,)])]. *)
Fixpoint look_ok (v : text) : bool :=
  match v with
  | [] => false
  | c :: v' => if is_space c then look_ok v' else punct c
  end.

Definition look_k : kont := fun p s c => go (cat [Cls punct]) p s c accept.

(** An occurrence of the pattern at a position: the text after the name
    when the pattern matches there. *)
Definition occ (name : text) (prev : option ascii) (s : text) : option text :=
  if at_boundary prev s then
    match strip name s with
    | Some v => if at_boundary (last_of prev name) v && look_ok v then Some v else None
    | None => None
    end
  else None.

(** [re.sub] with the parameter pattern, from a position on. *)
Definition param_sub (name : text) (prev : option ascii) (s : text) : text :=
  sub_at (param_pattern name) (param_template name) 0 prev s.

(** The output is the input with underscores put before some word
    characters. *)
Inductive ins : text -> text -> Prop :=
| ins_nil : ins [] []
| ins_keep c s s' : ins s s' -> ins (c :: s) (c :: s')
| ins_add c s s' : is_word c = true -> ins s s' -> ins (c :: s) ("_"%char :: c :: s').

(** A line of the compiler in the expected format. *)
Definition diag_line (path ds cs name tail : text) : text :=
  path ++ "("%char :: ds ++ ","%char :: cs ++ T "): error TS6133: '" ++ name
       ++ T "' is declared but its value is never read" ++ "."%char :: tail.

Definition line_fixed (path : text) (n : Z) (name : text) : text :=
  T "Fixed: " ++ path ++ T ":" ++ show_Z n ++ T " - prefixed '" ++ name
    ++ T "' with underscore".

Definition line_total (n : nat) : text := nl :: T "Total fixes applied: " ++ show_nat n.

(** The line [process_line] prints when it has fixed the parameter that
    the stream line [l] names. *)
Definition fixed_message (l : text) : option text :=
  match re_match diag_pattern l with
  | Some m =>
      Some (line_fixed (group 1 (m_caps m)) (int_of_digits (group 2 (m_caps m)))
                       (group 4 (m_caps m)))
  | None => None
  end.


(** ** Examples *)

Definition demo_path : text := T "a.ts".

Definition demo_unused (n : Z) : diag := Diag demo_path n (Some unused_rule) [].

Definition demo_world (content : text) : world := World {[ demo_path := content ]} [].

Definition two_statements : text := T "const x = 1;" ++ [nl] ++ T "foo();" ++ [nl].

Definition two_vars : text := T "var b = a;" ++ [nl] ++ T "var a = 1;" ++ [nl].

(** A linter for the demonstration: one error and one warning while the
    file is as first written, nothing once it has changed. *)
Definition demo_report : list file_result :=
  [FileResult demo_path
     [Message 2 1 (Some unused_rule) (T "'x' is assigned a value but never used.");
      Message 1 2 (Some unused_rule) (T "warning")]].

Definition demo_eslint (fs : gmap text text) : option (list file_result) :=
  if bool_decide (fs !! demo_path = Some two_statements) then Some demo_report
  else Some [].

Definition demo_patched : world :=
  World {[ demo_path := T "foo();" ++ [nl] ]}
        [line_start; line_found 1; unused_banner demo_path].


Definition demo_signature : text := T "foo(bar: string, unused: number) {}".
Definition demo_signature_fixed : text := T "foo(bar: string, _unused: number) {}".

Definition demo_diag : text :=
  T "a.ts(1,18): error TS6133: 'unused' is declared but its value is never read."
    ++ [nl].

Definition two_functions : text :=
  T "f(a: number) {}" ++ [nl] ++ T "g(c: string) {}" ++ [nl].

Definition ascending_stdin : list text :=
  [T "a.ts(1,3): error TS6133: 'a' is declared but its value is never read." ++ [nl];
   T "a.ts(2,3): error TS6133: 'c' is declared but its value is never read." ++ [nl]].

(** ** Further vocabulary *)

(** The pattern of a declaration with the keyword [kw]; the first three
    patterns are its instances. *)
Definition pat_binding (kw : text) : re :=
  cat [Bol; many is_space; lit kw; many1 is_space; many1 is_word;
       many is_space; Chr "="; few is_dot; Chr ";"; many is_space; Eol].

(** The three forms of line that the five patterns describe: a
    declaration with an initialiser, an import of a list of names in
    braces, and a default import.  In each the text before the last
    semicolon is free of line feeds, and only white space follows it. *)
Definition binding_line (l : text) : Prop :=
  exists ws kw s1 name s2 rhs tail,
    l = ws ++ kw ++ s1 ++ name ++ s2 ++ "="%char :: rhs ++ ";"%char :: tail /\
    all_in is_space ws /\ kw ∈ [T "const"; T "let"; T "var"] /\
    all_in is_space s1 /\ nonempty s1 /\ word_name name /\ all_in is_space s2 /\
    all_in is_dot rhs /\ all_in is_space tail.

Definition import_braces_line (l : text) : Prop :=
  exists ws s1 names s2 src tail,
    l = ws ++ T "import" ++ s1 ++ "{"%char :: names ++ "}"%char :: s2
           ++ T "from" ++ src ++ ";"%char :: tail /\
    all_in is_space ws /\ all_in is_space s1 /\ all_in (none_of (T "}")) names /\
    all_in is_space s2 /\ all_in is_dot src /\ all_in is_space tail.

Definition import_default_line (l : text) : Prop :=
  exists ws s1 name s2 src tail,
    l = ws ++ T "import" ++ s1 ++ name ++ s2 ++ T "from" ++ src ++ ";"%char :: tail /\
    all_in is_space ws /\ all_in is_space s1 /\ nonempty s1 /\ word_name name /\
    all_in is_space s2 /\ nonempty s2 /\ all_in is_dot src /\ all_in is_space tail.

Definition removable (l : text) : Prop :=
  binding_line l \/ import_braces_line l \/ import_default_line l.

(** The files that the diagnostics of a rule name. *)
Definition names_file (rule : text) (errors : list diag) (p : text) : Prop :=
  exists e, e ∈ errors /\ d_rule e = Some rule /\ d_file e = p.


(** The world a computation ends in, whether it returns or raises. *)
Definition final {A} (o : outcome A) : world :=
  match o with Ok _ w | Raise _ w => w end.

(** From [w] to [w'] no file is created, none is removed, and only files
    of which [S] holds change. *)
Definition frame (S : text -> Prop) (w w' : world) : Prop :=
  dom (files w') = dom (files w) /\
  forall p, ~ S p -> files w' !! p = files w !! p.

Definition touches_only {A} (S : text -> Prop) (m : M A) : Prop :=
  forall w, frame S w (final (m w)).

(** The files for which the linter's report holds an error of a rule. *)
Definition reported (data : list file_result) (rule : text) (p : text) : Prop :=
  exists fr m,
    fr ∈ data /\ filePath fr = p /\ m ∈ messages fr /\
    severity m = 2%Z /\ ruleId m = Some rule.

(** The diagnostic [e] with another line number. *)
Definition with_line (e : diag) (z : Z) : diag :=
  Diag (d_file e) z (d_rule e) (d_message e).

(** A plain require statement, with its white space and its two quote
    characters, and the import statement it becomes. *)
Definition require_of (s1 name s2 s3 : text) (q : ascii) (m : text) (q' : ascii) : text :=
  T "const" ++ s1 ++ name ++ s2 ++ "="%char :: s3 ++ T "require(" ++ q :: m ++ q' :: T ")".

Definition import_of (name m : text) : text :=
  T "import " ++ name ++ T " from " ++ dq :: m ++ [dq].

Definition require_banner (p : text) : text :=
  T "Fixing require imports in " ++ basename p ++ T "...".

(** The captured groups hold only characters of which [P] holds. *)
Definition caps_in (P : ascii -> Prop) (cs : caps) : Prop :=
  Forall (fun c => Forall P (snd c)) cs.

(** The literal parts of a template hold only such characters. *)
Definition tpl_in (P : ascii -> Prop) (tpl : list titem) : Prop :=
  Forall (fun it => match it with TLit s => Forall P s | TRef _ => True end) tpl.

End Vocabulary.

(** * Properties *)

(** ** Characters *)

Ltac by_cases_on_char c :=
  destruct c as [[] [] [] [] [] [] [] []]; vm_compute in *; try congruence; auto.

Lemma chr_eqb_eq (a b : ascii) : chr_eqb a b = true <-> a = b.
Proof. apply Ascii.eqb_eq. Qed.

Lemma chr_eqb_refl (a : ascii) : chr_eqb a a = true.
Proof. apply Ascii.eqb_refl. Qed.

Lemma chr_eqb_neq (a b : ascii) : chr_eqb a b = false <-> a <> b.
Proof. apply Ascii.eqb_neq. Qed.

Lemma space_not_word (c : ascii) : is_space c = true -> is_word c = false.
Proof. intros H. by_cases_on_char c. Qed.

Lemma punct_not_word (c : ascii) : one_of (T ":,)") c = true -> is_word c = false.
Proof. intros H. by_cases_on_char c. Qed.

Lemma punct_not_space (c : ascii) : one_of (T ":,)") c = true -> is_space c = false.
Proof. intros H. by_cases_on_char c. Qed.

Lemma word_not_nl (c : ascii) : is_word c = true -> c <> nl.
Proof. intros H ->. vm_compute in H. congruence. Qed.

Lemma word_not_cr (c : ascii) : is_word c = true -> c <> cr.
Proof. intros H ->. vm_compute in H. congruence. Qed.

(** ** Lines of a text *)

Lemma concat_readlines (s : text) : concat (readlines s) = s.
Proof.
  induction s as [|c s IH]; simpl; [reflexivity|].
  destruct (chr_eqb c nl).
  - simpl. now rewrite IH.
  - destruct (readlines s) as [|l ls]; simpl in *; now rewrite <- IH.
Qed.

Lemma readlines_wf (s : text) : wf_lines (readlines s).
Proof.
  induction s as [|c s IH]; simpl; [constructor|].
  destruct (chr_eqb c nl) eqn:E.
  - apply chr_eqb_eq in E. subst c. apply wf_cons; [|exact IH].
    exists []. split; [reflexivity | constructor].
  - apply chr_eqb_neq in E.
    inversion IH as [Hn | l [Hl1 Hl2] Hn | l ls [t [Ht1 Ht2]] Hls Hn]; simpl.
    + apply wf_last. split; [discriminate | repeat constructor; exact E].
    + apply wf_last. split; [discriminate | constructor; assumption].
    + apply wf_cons; [|exact Hls].
      exists (c :: t). subst l. split; [reflexivity | constructor; assumption].
Qed.

Lemma readlines_complete (t rest : text) :
  Forall (fun c => c <> nl) t ->
  readlines (t ++ nl :: rest) = (t ++ [nl]) :: readlines rest.
Proof.
  induction 1 as [|c t Hc Ht IH]; simpl.
  - reflexivity.
  - apply chr_eqb_neq in Hc. rewrite Hc, IH. reflexivity.
Qed.

Lemma readlines_partial (l : text) : partial_line l -> readlines l = [l].
Proof.
  intros [Hne Hall]. induction Hall as [|c t Hc Ht IH]; [congruence|].
  simpl. apply chr_eqb_neq in Hc. rewrite Hc.
  destruct t as [|d t]; [reflexivity|].
  rewrite IH by discriminate. reflexivity.
Qed.

Lemma readlines_concat (ls : list text) : wf_lines ls -> readlines (concat ls) = ls.
Proof.
  induction 1 as [| l Hl | l ls [t [-> Ht]] Hls IH]; simpl.
  - reflexivity.
  - rewrite app_nil_r. now apply readlines_partial.
  - rewrite <- app_assoc. simpl. rewrite readlines_complete by assumption.
    now rewrite IH.
Qed.

(** Universal newlines leave no carriage return, and change nothing in a
    text that has none. *)
Lemma universal_newlines_no_cr (s : text) :
  Forall (fun c => c <> cr) (universal_newlines s).
Proof.
  remember (length s) as n eqn:Hn. revert s Hn.
  induction n as [n IH] using lt_wf_ind. intros s Hn.
  destruct s as [|c s]; simpl; [constructor|].
  destruct (chr_eqb c cr) eqn:E.
  - constructor; [intros H; vm_compute in H; congruence|].
    destruct s as [|d s]; [constructor|].
    destruct (chr_eqb d nl); (eapply IH; [|reflexivity]); simpl in Hn; simpl; lia.
  - constructor; [now apply chr_eqb_neq|].
    eapply IH; [|reflexivity]. simpl in Hn. lia.
Qed.

Lemma universal_newlines_id (s : text) :
  Forall (fun c => c <> cr) s -> universal_newlines s = s.
Proof.
  induction 1 as [|c s Hc Hs IH]; simpl; [reflexivity|].
  apply chr_eqb_neq in Hc. now rewrite Hc, IH.
Qed.

Lemma Forall_concat_readlines (P : ascii -> Prop) (s : text) :
  Forall P s -> Forall (Forall P) (readlines s).
Proof.
  intros H. rewrite <- (concat_readlines s) in H.
  induction (readlines s) as [|l ls IH]; [constructor|].
  simpl in H. apply Forall_app in H. destruct H. constructor; auto.
Qed.

(** ** Python indexing *)

Lemma py_index_lt (n : nat) (z : Z) (i : nat) : py_index n z = Some i -> i < n.
Proof.
  unfold py_index. intros H.
  destruct ((0 <=? z)%Z && (z <? Z.of_nat n)%Z) eqn:E1.
  - injection H as <-. apply andb_true_iff in E1. lia.
  - destruct ((- Z.of_nat n <=? z)%Z && (z <? 0)%Z) eqn:E2; [|discriminate].
    injection H as <-. apply andb_true_iff in E2. lia.
Qed.

Lemma py_index_in_range (n : nat) (z : Z) :
  (1 <= z <= Z.of_nat n)%Z -> py_index n (z - 1) = Some (Z.to_nat (z - 1)).
Proof.
  intros H. unfold py_index.
  replace ((0 <=? z - 1)%Z && (z - 1 <? Z.of_nat n)%Z) with true; [reflexivity|].
  symmetry. apply andb_true_iff. lia.
Qed.

(** ** The unused-declaration patcher on the line buffer *)

Module UnusedVars.
Import FixEslintErrors.

Lemma first_match_empty : first_match patterns [] = false.
Proof. vm_compute. reflexivity. Qed.

Lemma patch_line_inv (lines lines' : list text) (e : diag) :
  patch_line lines e = Some lines' ->
  exists i l,
    py_index (length lines) (d_line e - 1) = Some i /\ lines !! i = Some l /\
    lines' = if first_match patterns l then <[i := []]> lines else lines.
Proof.
  unfold patch_line. intros H.
  destruct (py_index _ _) as [i|]; [|discriminate].
  destruct (lines !! i) as [l|] eqn:El; [|discriminate].
  exists i, l. split; [reflexivity | split; [exact El|]].
  destruct (first_match patterns l); congruence.
Qed.

Lemma patch_line_length (lines lines' : list text) (e : diag) :
  patch_line lines e = Some lines' -> length lines' = length lines.
Proof.
  intros H. apply patch_line_inv in H as (i & l & _ & _ & ->).
  destruct (first_match patterns l); [apply length_insert | reflexivity].
Qed.

Lemma patch_lines_length (es : list diag) (lines lines' : list text) :
  patch_lines lines es = Some lines' -> length lines' = length lines.
Proof.
  revert lines. induction es as [|e es IH]; simpl; intros lines H.
  - congruence.
  - destruct (patch_line lines e) as [l1|] eqn:E; [|discriminate].
    rewrite (IH _ H). now apply patch_line_length in E.
Qed.

Lemma patch_line_total (lines : list text) (e : diag) :
  py_index (length lines) (d_line e - 1) <> None ->
  exists lines', patch_line lines e = Some lines'.
Proof.
  unfold patch_line. intros H.
  destruct (py_index _ _) as [i|] eqn:E; [|congruence].
  apply py_index_lt in E. apply lookup_lt_is_Some in E as [l ->].
  destruct (first_match patterns l); eauto.
Qed.

Lemma patch_lines_total (es : list diag) (lines : list text) :
  (forall e, e ∈ es -> py_index (length lines) (d_line e - 1) <> None) ->
  exists lines', patch_lines lines es = Some lines'.
Proof.
  revert lines. induction es as [|e es IH]; simpl; intros lines H; [eauto|].
  destruct (patch_line_total lines e) as [l1 E]; [apply H; left|].
  rewrite E. apply IH. intros e' He'.
  rewrite (patch_line_length _ _ _ E). apply H. now right.
Qed.

Lemma flagged_true (n : nat) (es : list diag) (i : nat) :
  flagged n es i = true <->
  exists e, e ∈ es /\ py_index n (d_line e - 1) = Some i.
Proof.
  unfold flagged. rewrite existsb_exists. split.
  - intros (e & He & Hd). exists e. split; [now apply list_elem_of_In|].
    now apply bool_decide_eq_true in Hd.
  - intros (e & He & Hd). exists e. split; [now apply list_elem_of_In|].
    now apply bool_decide_eq_true.
Qed.

Lemma flagged_cons (n : nat) (e : diag) (es : list diag) (i : nat) :
  flagged n (e :: es) i =
  bool_decide (py_index n (d_line e - 1) = Some i) || flagged n es i.
Proof. reflexivity. Qed.

(** The buffer after the loop: an entry is emptied exactly when a
    diagnostic points at it and it matches one of the patterns. *)
Lemma patch_lines_lookup (es : list diag) (lines lines' : list text) :
  patch_lines lines es = Some lines' ->
  forall i l, lines !! i = Some l ->
    lines' !! i =
      Some (if flagged (length lines) es i && first_match patterns l then [] else l).
Proof.
  revert lines. induction es as [|e es IH]; intros lines H i l Hl.
  - simpl in H. injection H as <-. exact Hl.
  - simpl in H. destruct (patch_line lines e) as [l1|] eqn:E; [|discriminate].
    apply patch_line_inv in E as (j & lj & Hj & Hlj & ->).
    rewrite flagged_cons, Hj.
    destruct (decide (j = i)) as [->|Hne].
    + rewrite bool_decide_eq_true_2 by reflexivity. cbn [orb andb].
      assert (lj = l) as -> by congruence.
      destruct (first_match patterns l) eqn:Fm.
      * rewrite (IH _ H i []).
        -- rewrite first_match_empty, andb_false_r. reflexivity.
        -- apply list_lookup_insert_eq. now apply lookup_lt_Some in Hl.
      * rewrite (IH _ H i l Hl), Fm, andb_false_r. reflexivity.
    + rewrite bool_decide_eq_false_2 by congruence. cbn [orb andb].
      destruct (first_match patterns lj).
      * rewrite (IH _ H i l), length_insert; [reflexivity|].
        rewrite list_lookup_insert_ne by exact Hne. exact Hl.
      * apply (IH _ H i l Hl).
Qed.

Lemma patch_lines_noop (es : list diag) (lines : list text) :
  (forall e, e ∈ es ->
     exists i l, py_index (length lines) (d_line e - 1) = Some i /\
                 lines !! i = Some l /\ first_match patterns l = false) ->
  patch_lines lines es = Some lines.
Proof.
  induction es as [|e es IH]; intros H; [reflexivity|].
  destruct (H e) as (i & l & Hi & Hl & Fm); [left|].
  cbn [patch_lines]. unfold patch_line. rewrite Hi, Hl, Fm. apply IH.
  intros e' He'. apply H. now right.
Qed.

(** The stable descending sort. *)
Lemma insert_desc_perm (e : diag) (l : list diag) : insert_desc e l ≡ₚ e :: l.
Proof.
  induction l as [|x l IH]; simpl; [reflexivity|].
  destruct (d_line x <=? d_line e)%Z; [reflexivity|].
  rewrite IH. apply Permutation_swap.
Qed.

Lemma sort_desc_perm (l : list diag) : sort_desc l ≡ₚ l.
Proof.
  induction l as [|e l IH]; simpl; [reflexivity|].
  rewrite insert_desc_perm. now rewrite IH.
Qed.

Lemma insert_desc_sorted (e : diag) (l : list diag) :
  StronglySorted line_ge l -> StronglySorted line_ge (insert_desc e l).
Proof.
  induction 1 as [|x l Hl IH Hx]; simpl.
  - repeat constructor.
  - destruct (d_line x <=? d_line e)%Z eqn:E.
    + apply Z.leb_le in E. constructor; [constructor; assumption|].
      constructor; [exact E|].
      eapply Forall_impl; [exact Hx|]. unfold line_ge. simpl. intros; lia.
    + apply Z.leb_gt in E. constructor; [exact IH|].
      rewrite insert_desc_perm. constructor; [unfold line_ge; lia | exact Hx].
Qed.

Lemma sort_desc_sorted (l : list diag) : StronglySorted line_ge (sort_desc l).
Proof.
  induction l as [|e l IH]; simpl; [constructor | now apply insert_desc_sorted].
Qed.

Lemma insert_desc_stable (z : Z) (e : diag) (l : list diag) :
  filter (fun x => d_line x = z) (insert_desc e l) =
  filter (fun x => d_line x = z) (e :: l).
Proof.
  induction l as [|x l IH]; simpl; [reflexivity|].
  destruct (d_line x <=? d_line e)%Z eqn:E; [reflexivity|].
  apply Z.leb_gt in E.
  rewrite (filter_cons _ x), IH, !filter_cons.
  destruct (decide (d_line x = z)), (decide (d_line e = z)); try reflexivity; lia.
Qed.

Lemma sort_desc_stable (z : Z) (l : list diag) :
  filter (fun x => d_line x = z) (sort_desc l) = filter (fun x => d_line x = z) l.
Proof.
  induction l as [|e l IH]; simpl; [reflexivity|].
  rewrite insert_desc_stable, !filter_cons, IH. reflexivity.
Qed.

End UnusedVars.

(** ** The matcher *)

Lemma last_of_nil (prev : option ascii) : last_of prev [] = prev.
Proof. reflexivity. Qed.

Lemma last_of_cons (prev : option ascii) (c : ascii) (u : text) :
  last_of prev (c :: u) = last_of (Some c) u.
Proof.
  unfold last_of. destruct u as [|a u]; [reflexivity|].
  change (last (c :: a :: u)) with (last (a :: u)).
  destruct (last (a :: u)) eqn:E; [reflexivity|].
  apply last_None in E. discriminate.
Qed.

Lemma last_of_app (prev : option ascii) (u v : text) :
  last_of prev (u ++ v) = last_of (last_of prev u) v.
Proof.
  revert prev. induction u as [|c u IH]; intros prev; [reflexivity|].
  simpl app. rewrite !last_of_cons. apply IH.
Qed.

Lemma take_consumed (u v : text) : take (length (u ++ v) - length v) (u ++ v) = u.
Proof.
  rewrite length_app. replace (length u + length v - length v) with (length u) by lia.
  rewrite take_app_length. reflexivity.
Qed.

Lemma strip_app (u v : text) : strip u (u ++ v) = Some v.
Proof. induction u as [|c u IH]; simpl; [reflexivity|]. now rewrite chr_eqb_refl. Qed.

Lemma strip_inv (u s v : text) : strip u s = Some v -> s = u ++ v.
Proof.
  revert s. induction u as [|c u IH]; simpl; intros s H; [congruence|].
  destruct s as [|x s]; [discriminate|].
  destruct (chr_eqb x c) eqn:E; [|discriminate].
  apply chr_eqb_eq in E. subst x. f_equal. now apply IH.
Qed.

Lemma go_cat_cons (r : re) (rs : list re) prev s cs k :
  go (cat (r :: rs)) prev s cs k =
  go r prev s cs (fun p' s' cs' => go (cat rs) p' s' cs' k).
Proof. reflexivity. Qed.

Lemma go_cat_nil prev s cs k : go (cat []) prev s cs k = k prev s cs.
Proof. reflexivity. Qed.

Lemma go_lit (u : text) prev s cs k :
  go (lit u) prev s cs k =
  match strip u s with
  | Some s' => k (last_of prev u) s' cs
  | None => None
  end.
Proof.
  revert prev s. induction u as [|c u IH]; intros prev s; [reflexivity|].
  change (lit (c :: u)) with (Cat (Chr c) (lit u)). simpl.
  destruct s as [|x s]; [reflexivity|].
  destruct (chr_eqb x c) eqn:E; [|reflexivity].
  apply chr_eqb_eq in E. subst x. rewrite IH, last_of_cons. reflexivity.
Qed.

Lemma rep_greedy_ok (p : ascii -> bool) (u v : text) :
  all_in p u -> stops p v ->
  forall min prev cs k st,
    min <= length u ->
    k (last_of prev u) v cs = Some st ->
    rep p min Greedy prev (u ++ v) cs k = Some st.
Proof.
  intros Hu Hv. induction Hu as [|x u Hx Hu IH]; intros min prev cs k st Hmin Hk.
  - simpl in Hmin. assert (min = 0) as -> by lia.
    destruct v as [|c v]; simpl in *; [exact Hk|]. rewrite Hv. exact Hk.
  - simpl. rewrite Hx. rewrite last_of_cons in Hk.
    rewrite (IH (pred min) (Some x) cs k st); [reflexivity | simpl in Hmin; lia | exact Hk].
Qed.

Lemma rep_lazy_ok (p : ascii -> bool) (u v : text) :
  all_in p u ->
  forall min prev cs k st,
    min <= length u ->
    (forall u1 u2, u = u1 ++ u2 -> u2 <> [] -> min <= length u1 ->
                   k (last_of prev u1) (u2 ++ v) cs = None) ->
    k (last_of prev u) v cs = Some st ->
    rep p min Lazy prev (u ++ v) cs k = Some st.
Proof.
  intros Hu. induction Hu as [|x u Hx Hu IH]; intros min prev cs k st Hmin Hk Hst.
  - simpl in Hmin. assert (min = 0) as -> by lia.
    rewrite last_of_nil in Hst. destruct v as [|c v]; simpl; now rewrite Hst.
  - assert (Hfirst : match min with 0 => k prev ((x :: u) ++ v) cs | S _ => None end = None).
    { destruct min; [|reflexivity].
      apply (Hk [] (x :: u)); [reflexivity | discriminate | simpl; lia]. }
    simpl. simpl in Hfirst. rewrite Hfirst, Hx. rewrite last_of_cons in Hst.
    apply IH; [simpl in Hmin; lia | | exact Hst].
    intros u1 u2 -> Hne Hlen. rewrite <- (last_of_cons prev).
    apply (Hk (x :: u1) u2); [reflexivity | exact Hne | simpl; lia].
Qed.

Lemma rep_sound (p : ascii -> bool) (g : greed) (s : text) :
  forall min prev cs k st,
    rep p min g prev s cs k = Some st ->
    exists u s', s = u ++ s' /\ all_in p u /\ min <= length u /\
                 k (last_of prev u) s' cs = Some st.
Proof.
  induction s as [|c s IH]; intros min prev cs k st H.
  - exists [], [].
    assert (Hk : k prev [] cs = Some st /\ min = 0).
    { destruct g, min; simpl in H; try discriminate; [auto|].
      destruct (k prev [] cs); [auto | discriminate]. }
    destruct Hk as [Hk ->].
    split; [reflexivity | split; [constructor | split; [simpl; lia | exact Hk]]].
  - assert (Hstop : forall st', match min with 0 => k prev (c :: s) cs | S _ => None end = Some st' ->
              exists u s', c :: s = u ++ s' /\ all_in p u /\ min <= length u /\
                           k (last_of prev u) s' cs = Some st').
    { intros st' E. destruct min; [|discriminate].
      exists [], (c :: s). split; [reflexivity | split; [constructor | split; [simpl; lia | exact E]]]. }
    assert (Hmore : forall st', (if p c then rep p (pred min) g (Some c) s cs k else None) = Some st' ->
              exists u s', c :: s = u ++ s' /\ all_in p u /\ min <= length u /\
                           k (last_of prev u) s' cs = Some st').
    { intros st' E. destruct (p c) eqn:Pc; [|discriminate].
      apply IH in E as (u & s' & -> & Hu & Hmin & Hk).
      exists (c :: u), s'. split; [reflexivity|]. split; [constructor; assumption|].
      split; [simpl; lia|]. rewrite last_of_cons. exact Hk. }
    destruct g; simpl in H.
    + destruct (if p c then rep p (pred min) Greedy (Some c) s cs k else None) eqn:E.
      * injection H as <-. now apply Hmore.
      * now apply Hstop.
    + destruct (match min with 0 => k prev (c :: s) cs | S _ => None end) eqn:E.
      * injection H as <-. now apply Hstop.
      * now apply Hmore.
Qed.

Lemma go_sound (r : re) :
  forall prev s cs k st,
    go r prev s cs k = Some st ->
    exists prev' s' cs', den r prev s prev' s' /\ k prev' s' cs' = Some st.
Proof.
  induction r as [|c|p|p min g|r1 IH1 r2 IH2|i r1 IH1| | | |r1 IH1];
    intros prev s cs k st H; simpl in H.
  - exists prev, s, cs. simpl. auto.
  - destruct s as [|x s]; [discriminate|].
    destruct (chr_eqb x c) eqn:E; [|discriminate].
    apply chr_eqb_eq in E. subst x. exists (Some c), s, cs. simpl. auto.
  - destruct s as [|x s]; [discriminate|].
    destruct (p x) eqn:E; [|discriminate].
    exists (Some x), s, cs. simpl. eauto.
  - apply rep_sound in H as (u & s' & -> & Hu & Hmin & Hk).
    exists (last_of prev u), s', cs. simpl. eauto 10.
  - apply IH1 in H as (pm & sm & cm & D1 & H).
    apply IH2 in H as (p' & s' & cs' & D2 & H).
    exists p', s', cs'. simpl. eauto.
  - apply IH1 in H as (p' & s' & cs' & D1 & H).
    exists p', s', ((i, take (length s - length s') s) :: cs'). simpl. auto.
  - destruct prev; [discriminate|]. exists None, s, cs. simpl. auto.
  - destruct (at_eol s) eqn:E; [|discriminate]. exists prev, s, cs. simpl. auto.
  - destruct (at_boundary prev s) eqn:E; [|discriminate]. exists prev, s, cs. simpl. auto.
  - destruct (go r1 prev s cs _) as [st1|] eqn:E; [|discriminate].
    apply IH1 in E as (p2 & s2 & c2 & D & _).
    exists prev, s, (m_caps st1). simpl. eauto 10.
Qed.

Lemma try_match_sound (r : re) (adv : bool) prev s n cs :
  try_match r adv prev s = Some (n, cs) ->
  exists prev' s', den r prev s prev' s' /\ n = length s - length s'.
Proof.
  unfold try_match. intros H.
  destruct (go r prev s [] _) as [st|] eqn:E; [|discriminate].
  injection H as <- <-.
  apply go_sound in E as (p' & s' & cs' & D & Hk).
  destruct (adv && (length s' =? length s)); [discriminate|].
  injection Hk as <-. exists p', s'. auto.
Qed.

Lemma try_match_ok (r : re) prev (u v : text) p' cs :
  go r prev (u ++ v) [] accept = Some (MState p' v cs) ->
  try_match r false prev (u ++ v) = Some (length u, cs).
Proof.
  unfold try_match, accept. cbn [andb]. intros ->. cbn [m_rest m_caps].
  rewrite length_app. do 2 f_equal. lia.
Qed.

(** ** Substitution *)

Lemma sub_at_nil (r : re) tpl prev :
  try_match r false prev [] = None -> sub_at r tpl 0 prev [] = [].
Proof. intros H. simpl. now rewrite H. Qed.

Lemma sub_at_nomatch (r : re) tpl prev (c : ascii) (s : text) :
  try_match r false prev (c :: s) = None ->
  sub_at r tpl 0 prev (c :: s) = c :: sub_at r tpl 0 (Some c) s.
Proof. intros H. cbn [sub_at]. now rewrite H. Qed.

Lemma sub_at_skip (r : re) tpl (u v : text) prev :
  sub_at r tpl (length u) prev (u ++ v) = sub_at r tpl 0 (last_of prev u) v.
Proof.
  revert prev. induction u as [|c u IH]; intros prev; [reflexivity|].
  cbn [length app sub_at]. rewrite IH, last_of_cons. reflexivity.
Qed.

Lemma sub_at_match (r : re) tpl prev (u v : text) cs :
  u <> [] ->
  try_match r false prev (u ++ v) = Some (length u, cs) ->
  sub_at r tpl 0 prev (u ++ v) = expand tpl cs ++ sub_at r tpl 0 (last_of prev u) v.
Proof.
  intros Hne H. destruct u as [|c u]; [congruence|].
  cbn [app sub_at]. cbn [app] in H. rewrite H. cbn [length].
  rewrite sub_at_skip, last_of_cons. reflexivity.
Qed.




Lemma sub_at_none (r : re) tpl (s : text) :
  (forall u v p, s = u ++ v -> try_match r false p v = None) ->
  forall prev, sub_at r tpl 0 prev s = s.
Proof.
  induction s as [|c s IH]; intros H prev.
  - apply sub_at_nil. now apply (H [] []).
  - rewrite sub_at_nomatch by now apply (H [] (c :: s)).
    f_equal. apply IH. intros u v p ->. now apply (H (c :: u) v).
Qed.

(** ** The parameter pattern *)

Module UnusedParams.
Import FixUnusedParams.


Lemma look_ok_intro (ws : text) (c : ascii) (rest : text) :
  all_in is_space ws -> punct c = true -> look_ok (ws ++ c :: rest) = true.
Proof.
  intros Hws Hc. induction Hws as [|x ws Hx Hws IH]; simpl.
  - rewrite (punct_not_space c Hc). exact Hc.
  - rewrite Hx. exact IH.
Qed.

Lemma look_k_cons p (x : ascii) (v : text) c :
  look_k p (x :: v) c = if punct x then Some (MState (Some x) v c) else None.
Proof. reflexivity. Qed.

Lemma rep_look (v : text) prev cs :
  (look_ok v = true ->
   exists p' s', rep is_space 0 Greedy prev v cs look_k = Some (MState p' s' cs)) /\
  (look_ok v = false -> rep is_space 0 Greedy prev v cs look_k = None).
Proof.
  revert prev. induction v as [|x v IH]; intros prev.
  - split; [discriminate | reflexivity].
  - destruct (IH (Some x)) as [IHt IHf]. cbn [look_ok rep Nat.pred].
    rewrite look_k_cons.
    destruct (is_space x) eqn:E.
    + split; intros H.
      * destruct (IHt H) as (p' & s' & ->). eauto.
      * rewrite (IHf H).
        destruct (punct x) eqn:Px; [|reflexivity].
        apply punct_not_space in Px. congruence.
    + split; intros H; rewrite H; [eauto | reflexivity].
Qed.

Lemma go_look (v : text) prev cs k :
  go (Ahead (cat [many is_space; Cls punct])) prev v cs k =
  if look_ok v then k prev v cs else None.
Proof.
  change (go (Ahead (cat [many is_space; Cls punct])) prev v cs k)
    with (match rep is_space 0 Greedy prev v cs look_k with
          | Some st => k prev v (m_caps st)
          | None => None
          end).
  destruct (rep_look v prev cs) as [Ht Hf].
  destruct (look_ok v).
  - destruct Ht as (p' & s' & ->); reflexivity.
  - now rewrite Hf.
Qed.

Lemma go_param (name : text) prev s cs k :
  go (param_pattern name) prev s cs k =
  match occ name prev s with
  | Some v => k (last_of prev name) v cs
  | None => None
  end.
Proof.
  unfold param_pattern, occ. rewrite go_cat_cons. cbn [go].
  destruct (at_boundary prev s); [|reflexivity].
  rewrite go_cat_cons, go_lit.
  destruct (strip name s) as [v|]; [|reflexivity].
  rewrite go_cat_cons. cbn [go].
  destruct (at_boundary (last_of prev name) v); [|reflexivity].
  rewrite go_cat_cons. fold punct. rewrite go_look.
  destruct (look_ok v); reflexivity.
Qed.

Lemma occ_strip (name : text) prev s v : occ name prev s = Some v -> s = name ++ v.
Proof.
  unfold occ. destruct (at_boundary prev s); [|discriminate].
  destruct (strip name s) as [v'|] eqn:E; [|discriminate].
  destruct (_ && _); [|discriminate]. intros [= <-]. now apply strip_inv.
Qed.

Lemma try_match_param (name : text) (adv : bool) prev s :
  name <> [] ->
  try_match (param_pattern name) adv prev s =
  match occ name prev s with
  | Some v => Some (length name, [])
  | None => None
  end.
Proof.
  intros Hne. unfold try_match. rewrite go_param.
  destruct (occ name prev s) as [v|] eqn:E; [|reflexivity].
  apply occ_strip in E. subst s.
  replace (length v =? length (name ++ v)) with false.
  - rewrite andb_false_r. cbn [m_rest m_caps]. rewrite length_app.
    do 2 f_equal. lia.
  - symmetry. apply Nat.eqb_neq. rewrite length_app.
    destruct name; [congruence | simpl; lia].
Qed.

Section Name.

Variable name : text.
Hypothesis name_ok : word_name name.

Local Abbreviation sub := (param_sub name).

Lemma sub_nil prev : sub prev [] = [].
Proof.
  unfold sub. apply sub_at_nil. rewrite try_match_param by apply name_ok.
  unfold occ. destruct (at_boundary prev []); [|reflexivity].
  destruct name_ok as [Hne _]. destruct name; [congruence | reflexivity].
Qed.

Lemma sub_copy prev (c : ascii) (s : text) :
  occ name prev (c :: s) = None -> sub prev (c :: s) = c :: sub (Some c) s.
Proof.
  intros H. unfold sub. apply sub_at_nomatch.
  rewrite try_match_param by apply name_ok. now rewrite H.
Qed.

Lemma sub_match prev (s v : text) :
  occ name prev s = Some v ->
  sub prev s = "_"%char :: name ++ sub (last_of prev name) v.
Proof.
  intros H. pose proof (occ_strip _ _ _ _ H) as ->.
  unfold sub. rewrite (sub_at_match _ _ _ _ _ []).
  - unfold param_template, expand. simpl. rewrite app_nil_r. reflexivity.
  - apply name_ok.
  - rewrite try_match_param by apply name_ok. now rewrite H.
Qed.

Lemma name_head : exists c name', name = c :: name' /\ is_word c = true.
Proof.
  destruct name_ok as [Hne Hall]. destruct name as [|c name']; [congruence|].
  inversion Hall; subst. eauto.
Qed.

Lemma last_of_name prev : word_opt (last_of prev name) = true.
Proof.
  destruct name_ok as [Hne Hall]. unfold last_of.
  destruct (last name) as [c|] eqn:E.
  - simpl. apply last_Some in E as [l' ->].
    apply Forall_app in Hall as [_ Hc]. now inversion Hc.
  - apply last_None in E. congruence.
Qed.

Lemma last_of_name_eq (p q : option ascii) : last_of p name = last_of q name.
Proof.
  destruct name_ok as [Hne _]. unfold last_of.
  destruct (last name) eqn:E; [reflexivity|]. apply last_None in E. congruence.
Qed.

(** No occurrence right after a word character, and none at a character
    that is not a word character. *)
Lemma occ_after_word prev (s : text) : word_opt prev = true -> occ name prev s = None.
Proof.
  intros Hp. unfold occ. destruct (at_boundary prev s) eqn:B; [|reflexivity].
  destruct (strip name s) as [v|] eqn:E; [|reflexivity].
  apply strip_inv in E. subst s.
  destruct name_head as (c & name' & Hn & Hc). rewrite Hn in B.
  unfold at_boundary in B. simpl in B. rewrite Hp, Hc in B. discriminate.
Qed.

Lemma occ_at_nonword prev (x : ascii) (s : text) :
  is_word x = false -> occ name prev (x :: s) = None.
Proof.
  intros Hx. unfold occ. destruct (at_boundary prev (x :: s)); [|reflexivity].
  destruct name_head as (c & name' & Hn & Hc). rewrite Hn. simpl.
  destruct (chr_eqb x c) eqn:E; [|reflexivity].
  apply chr_eqb_eq in E. congruence.
Qed.

Lemma occ_inv prev (s v : text) :
  occ name prev s = Some v ->
  s = name ++ v /\ word_opt prev = false /\ word_opt (head v) = false /\ look_ok v = true.
Proof.
  intros H. pose proof (occ_strip _ _ _ _ H) as Hs. split; [exact Hs|].
  destruct (word_opt prev) eqn:Hp.
  { rewrite occ_after_word in H by exact Hp. discriminate. }
  split; [reflexivity|].
  unfold occ in H. destruct (at_boundary prev s); [|discriminate].
  destruct (strip name s) as [v'|]; [|discriminate].
  destruct (at_boundary (last_of prev name) v' && look_ok v') eqn:E; [|discriminate].
  injection H as ->. apply andb_true_iff in E as [B L]. split; [|exact L].
  unfold at_boundary in B. rewrite last_of_name in B.
  destruct (word_opt (head v)); [discriminate | reflexivity].
Qed.

Lemma occ_intro prev (v : text) :
  word_opt prev = false -> word_opt (head v) = false -> look_ok v = true ->
  occ name prev (name ++ v) = Some v.
Proof.
  intros Hp Hv L. unfold occ.
  destruct name_head as (c & name' & Hn & Hc).
  assert (B : at_boundary prev (name ++ v) = true).
  { rewrite Hn. unfold at_boundary. simpl. now rewrite Hp, Hc. }
  rewrite B, strip_app. unfold at_boundary. rewrite last_of_name, Hv, L. reflexivity.
Qed.

(** Word characters after a word character are copied. *)
Lemma sub_word_run (w v : text) prev :
  word_opt prev = true -> all_in is_word w ->
  sub prev (w ++ v) = w ++ sub (last_of prev w) v.
Proof.
  intros Hp Hw. revert prev Hp. induction Hw as [|x w Hx Hw IH]; intros prev Hp.
  - reflexivity.
  - simpl app. rewrite sub_copy by now apply occ_after_word.
    rewrite IH by exact Hx. now rewrite last_of_cons.
Qed.

(** If the output after a word character starts with a run of word
    characters, so did the input, and the rest corresponds. *)
Lemma sub_word_run_inv (w : text) :
  all_in is_word w ->
  forall prev s v2,
    word_opt prev = true -> sub prev s = w ++ v2 ->
    exists v1, s = w ++ v1 /\ sub (last_of prev w) v1 = v2.
Proof.
  induction 1 as [|x w Hx Hw IH]; intros prev s v2 Hp H.
  - exists s. auto.
  - destruct s as [|y s]; [rewrite sub_nil in H; discriminate|].
    rewrite sub_copy in H by now apply occ_after_word.
    simpl in H. injection H as -> H.
    apply IH in H as (v1 & -> & H); [|exact Hx].
    exists v1. split; [reflexivity|]. now rewrite last_of_cons.
Qed.

Lemma sub_head_nonword prev (s : text) :
  word_opt prev = true -> word_opt (head (sub prev s)) = word_opt (head s).
Proof.
  intros Hp. destruct s as [|y s]; [now rewrite sub_nil|].
  rewrite sub_copy by now apply occ_after_word. reflexivity.
Qed.

(** The lookahead sees the same thing before and after the substitution. *)
Lemma look_ok_sub (v : text) : forall prev, look_ok (sub prev v) = look_ok v.
Proof.
  induction v as [|x v IH]; intros prev; [now rewrite sub_nil|].
  destruct (occ name prev (x :: v)) as [v'|] eqn:E.
  - rewrite (sub_match _ _ _ E). apply occ_inv in E as (Hs & _).
    destruct name_head as (c & name' & Hn & Hc). rewrite Hn in Hs.
    simpl in Hs. injection Hs as -> _. simpl.
    destruct (is_space c) eqn:Sc.
    { apply space_not_word in Sc. congruence. }
    destruct (punct c) eqn:Pc; [|reflexivity].
    apply punct_not_word in Pc. congruence.
  - rewrite sub_copy by exact E. simpl. rewrite IH. reflexivity.
Qed.

(** An occurrence in the output is an occurrence in the input. *)
Lemma occ_sub prev (c : ascii) (s : text) :
  occ name prev (c :: s) = None -> occ name prev (c :: sub (Some c) s) = None.
Proof.
  intros H. destruct (occ name prev (c :: sub (Some c) s)) as [v2|] eqn:E; [|reflexivity].
  exfalso. apply occ_inv in E as (Hs & Hp & Hv & L).
  destruct name_head as (c0 & name' & Hn & Hc).
  assert (Hall : all_in is_word name') by (destruct name_ok as [_ Ha]; rewrite Hn in Ha; now inversion Ha).
  assert (Hs' : c :: sub (Some c) s = (c0 :: name') ++ v2) by (rewrite <- Hn; exact Hs).
  clear Hs. simpl in Hs'. injection Hs' as -> Hs.
  apply sub_word_run_inv in Hs as (v1 & -> & Hv1); [|exact Hall|exact Hc].
  assert (Hl : last_of (Some c0) name' = last_of prev name).
  { rewrite Hn. now rewrite last_of_cons. }
  rewrite Hl in Hv1.
  assert (E' : occ name prev (name ++ v1) = Some v1).
  { apply occ_intro; [exact Hp | | ].
    - rewrite <- Hv1 in Hv. rewrite sub_head_nonword in Hv; [exact Hv | apply last_of_name].
    - rewrite <- Hv1 in L. now rewrite look_ok_sub in L. }
  rewrite Hn in E'. simpl in E'. congruence.
Qed.

(** A second substitution finds nothing left to change. *)
Lemma sub_idempotent (s : text) : forall prev, sub prev (sub prev s) = sub prev s.
Proof.
  remember (length s) as n eqn:Hn. revert s Hn.
  induction n as [n IH] using lt_wf_ind. intros s Hn prev.
  destruct s as [|c s]; [now rewrite !sub_nil|].
  destruct (occ name prev (c :: s)) as [v|] eqn:E.
  - rewrite (sub_match _ _ _ E).
    pose proof (occ_inv _ _ _ E) as (Hs & Hp & Hv & L).
    assert (Hlen : length v < n).
    { rewrite Hn, Hs, length_app. destruct name_ok as [Hne _].
      destruct name; [congruence | simpl; lia]. }
    assert (E1 : occ name prev ("_"%char :: name ++ sub (last_of prev name) v) = None).
    { destruct (occ name prev ("_"%char :: name ++ sub (last_of prev name) v)) as [v2|] eqn:E2;
        [|reflexivity].
      exfalso. apply occ_inv in E2 as (Hs2 & _ & Hv2 & _).
      destruct name_ok as [Hne Ha].
      destruct (exists_last Hne) as (name0 & z & Hz). rewrite Hz in Hs2, Ha.
      apply Forall_app in Ha as [_ Hzw]. inversion Hzw as [|? ? Hzw1 _]; subst.
      assert (Hsplit : forall X : text,
                 "_"%char :: (name0 ++ [z]) ++ X = ("_"%char :: name0) ++ z :: X).
      { intros X. simpl. now rewrite <- app_assoc. }
      rewrite Hsplit in Hs2.
      apply app_inj_1 in Hs2 as [_ Hs2]; [|simpl; rewrite length_app; simpl; lia].
      rewrite <- Hs2 in Hv2. simpl in Hv2. congruence. }
    rewrite sub_copy by exact E1.
    rewrite sub_word_run; [|reflexivity|apply name_ok].
    rewrite (last_of_name_eq (Some "_"%char) prev).
    rewrite (IH (length v) Hlen v eq_refl). reflexivity.
  - rewrite sub_copy by exact E.
    rewrite sub_copy by now apply occ_sub.
    rewrite (IH (length s)); [reflexivity | simpl in Hn; lia | reflexivity].
Qed.

Lemma ins_app_same (u s s' : text) : ins s s' -> ins (u ++ s) (u ++ s').
Proof. intros H. induction u as [|c u IH]; [exact H | now apply ins_keep]. Qed.

Lemma sub_ins (s : text) : forall prev, ins s (sub prev s).
Proof.
  remember (length s) as n eqn:Hn. revert s Hn.
  induction n as [n IH] using lt_wf_ind. intros s Hn prev.
  destruct s as [|c s]; [rewrite sub_nil; constructor|].
  destruct (occ name prev (c :: s)) as [v|] eqn:E.
  - rewrite (sub_match _ _ _ E). apply occ_inv in E as (Hs & _).
    rewrite Hs. destruct name_head as (c0 & name' & Hn' & Hc0).
    assert (IHv : ins v (sub (last_of prev name) v)).
    { apply (IH (length v)); [|reflexivity].
      rewrite Hn, Hs, Hn'. simpl. rewrite length_app. lia. }
    revert IHv. generalize (sub (last_of prev name) v). intros o IHo.
    rewrite Hn'. simpl. apply ins_add; [exact Hc0|]. now apply ins_app_same.
  - rewrite sub_copy by exact E. apply ins_keep.
    apply (IH (length s)); [simpl in Hn; lia | reflexivity].
Qed.

End Name.

Lemma ins_Forall (P : ascii -> Prop) (s s' : text) :
  P "_"%char -> ins s s' -> Forall P s -> Forall P s'.
Proof.
  intros HP. induction 1 as [|c s s' _ IH|c s s' Hc _ IH]; intros H.
  - constructor.
  - inversion H; subst. constructor; auto.
  - inversion H; subst. repeat constructor; auto.
Qed.

Lemma ins_nonempty (s s' : text) : ins s s' -> s <> [] -> s' <> [].
Proof. intros H. destruct H; congruence. Qed.

Lemma ins_snoc_nl (t s' : text) :
  ins (t ++ [nl]) s' -> exists t', s' = t' ++ [nl] /\ ins t t'.
Proof.
  revert s'. induction t as [|c t IH]; intros s' H; simpl in H.
  - inversion H as [|c s1 s1' H1|c s1 s1' Hc H1]; subst.
    + inversion H1; subst. exists []. split; [reflexivity | constructor].
    + vm_compute in Hc. discriminate.
  - inversion H as [|c1 s1 s1' H1|c1 s1 s1' Hc H1]; subst.
    + apply IH in H1 as (t' & -> & H1). exists (c :: t'). split; [reflexivity|].
      now apply ins_keep.
    + apply IH in H1 as (t' & -> & H1). exists ("_"%char :: c :: t').
      split; [reflexivity|]. now apply ins_add.
Qed.

Lemma underscore_not_nl : "_"%char <> nl.
Proof. intros H. vm_compute in H. discriminate. Qed.

Lemma underscore_not_cr : "_"%char <> cr.
Proof. intros H. vm_compute in H. discriminate. Qed.

Lemma ins_complete (l l' : text) : ins l l' -> complete_line l -> complete_line l'.
Proof.
  intros H (t & -> & Ht). apply ins_snoc_nl in H as (t' & -> & H).
  exists t'. split; [reflexivity|].
  apply (ins_Forall _ _ _ underscore_not_nl H Ht).
Qed.

Lemma ins_partial (l l' : text) : ins l l' -> partial_line l -> partial_line l'.
Proof.
  intros H [Hne Hl]. split; [now apply (ins_nonempty l)|].
  apply (ins_Forall _ _ _ underscore_not_nl H Hl).
Qed.

Lemma wf_lines_insert (ls : list text) :
  wf_lines ls ->
  forall i l l', ls !! i = Some l ->
    (complete_line l -> complete_line l') ->
    (partial_line l -> partial_line l') ->
    wf_lines (<[i := l']> ls).
Proof.
  induction 1 as [|l0 Hl0|l0 ls Hl0 Hls IH]; intros i l l' Hi Hc Hp.
  - discriminate.
  - destruct i as [|i]; [|discriminate]. injection Hi as ->.
    simpl. apply wf_last. auto.
  - destruct i as [|i]; simpl.
    + injection Hi as ->. apply wf_cons; auto.
    + apply wf_cons; [exact Hl0|]. now apply (IH i l l').
Qed.

(** What [fix_unused_param] does, by cases. *)
Lemma fix_unused_param_eq (path name : text) (n : Z) (w : world) (raw : text) :
  files w !! path = Some raw ->
  fix_unused_param path n name w =
  let lines := readlines (universal_newlines raw) in
  match (if ((1 <=? n) && (n <=? Z.of_nat (length lines)))%Z
         then lines !! Z.to_nat (n - 1) else None) with
  | Some l =>
      let new_line := re_sub (param_pattern name) (param_template name) l in
      if bool_decide (new_line <> l)
      then Ok true (World (<[path := concat (<[Z.to_nat (n - 1) := new_line]> lines)]> (files w))
                          (out w))
      else Ok false w
  | None => Ok false w
  end.
Proof.
  intros Hf. unfold fix_unused_param, bind, read_file. rewrite Hf. cbv zeta.
  set (lines := readlines (universal_newlines raw)).
  destruct ((1 <=? n)%Z && (n <=? Z.of_nat (length lines))%Z) eqn:E.
  - apply andb_true_iff in E as [E1 E2].
    replace ((n - 1 <? 0)%Z || (Z.of_nat (length lines) <=? n - 1)%Z) with false
      by (symmetry; apply orb_false_iff; lia).
    destruct (lines !! Z.to_nat (n - 1)) as [l|]; [|reflexivity].
    destruct (bool_decide _); reflexivity.
  - replace ((n - 1 <? 0)%Z || (Z.of_nat (length lines) <=? n - 1)%Z) with true;
      [reflexivity|].
    symmetry. apply andb_false_iff in E. apply orb_true_iff. lia.
Qed.

End UnusedParams.

(** * The claims *)

Import FixEslintErrors UnusedVars.

Lemma flagged_sort_desc (n : nat) (es : list diag) (i : nat) :
  flagged n (sort_desc es) i = flagged n es i.
Proof.
  destruct (flagged n es i) eqn:E.
  - apply flagged_true in E as (e & He & Hi). apply flagged_true.
    exists e. split; [now rewrite sort_desc_perm | exact Hi].
  - destruct (flagged n (sort_desc es) i) eqn:E'; [|reflexivity].
    apply flagged_true in E' as (e & He & Hi). rewrite sort_desc_perm in He.
    assert (flagged n es i = true) by (apply flagged_true; eauto). congruence.
Qed.

Lemma patch_lines_valid (es : list diag) (lines lines' : list text) :
  patch_lines lines es = Some lines' ->
  forall e, e ∈ es -> exists i, py_index (length lines) (d_line e - 1) = Some i.
Proof.
  revert lines. induction es as [|e0 es IH]; intros lines H e He.
  - inversion He.
  - cbn [patch_lines] in H.
    destruct (patch_line lines e0) as [l1|] eqn:E; [|discriminate].
    pose proof (patch_line_length _ _ _ E) as Hlen.
    apply elem_of_cons in He as [->|He].
    + apply patch_line_inv in E as (i & _ & Hi & _). eauto.
    + rewrite <- Hlen. now apply (IH l1).
Qed.

Lemma patch_lines_twice (es : list diag) (lines lines' : list text) :
  patch_lines lines es = Some lines' -> patch_lines lines' es = Some lines'.
Proof.
  intros H. apply patch_lines_noop. intros e He.
  destruct (patch_lines_valid _ _ _ H e He) as [i Hi].
  pose proof (py_index_lt _ _ _ Hi) as Hlt.
  apply lookup_lt_is_Some in Hlt as [l0 Hl0].
  pose proof (patch_lines_lookup _ _ _ H i l0 Hl0) as Hl'.
  assert (Hf : flagged (length lines) es i = true) by (apply flagged_true; eauto).
  rewrite Hf in Hl'. cbn [andb] in Hl'.
  rewrite (patch_lines_length _ _ _ H).
  exists i. destruct (first_match patterns l0) eqn:Fm.
  - exists []. split; [exact Hi | split; [exact Hl' | apply first_match_empty]].
  - exists l0. split; [exact Hi | split; [exact Hl' | exact Fm]].
Qed.

(** C1 (amended).  For a file whose diagnostics all point inside it, the
    unused-declaration patcher rewrites the file as the concatenation of
    its line list, in which an entry is the empty string exactly when a
    diagnostic points at it and it matches one of the five patterns, and
    every other entry is the original line; the list keeps its length.
    The emptied entry is written as nothing at all, so no blank line is
    left in the file. *)
Theorem unused_patch_frame (p : text) (es : list diag) (w : world) (raw : text) :
  files w !! p = Some raw ->
  (forall e, e ∈ es ->
     py_index (length (readlines (universal_newlines raw))) (d_line e - 1) <> None) ->
  exists lines',
    fix_unused_file p es w =
      Ok tt (World (<[p := concat lines']> (files w)) (out w ++ [unused_banner p])) /\
    length lines' = length (readlines (universal_newlines raw)) /\
    forall i l,
      readlines (universal_newlines raw) !! i = Some l ->
      lines' !! i =
        Some (if flagged (length (readlines (universal_newlines raw))) es i
                 && first_match patterns l
              then [] else l).
Proof.
  intros Hf Hvalid.
  destruct (patch_lines_total (sort_desc es) (readlines (universal_newlines raw)))
    as [lines' Hp].
  { intros e He. apply Hvalid. now rewrite <- sort_desc_perm. }
  exists lines'. split; [|split].
  - unfold fix_unused_file, bind, print, read_file. cbn [files out].
    rewrite Hf, Hp. reflexivity.
  - now apply patch_lines_length in Hp.
  - intros i l Hl. rewrite (patch_lines_lookup _ _ _ Hp i l Hl).
    now rewrite flagged_sort_desc.
Qed.

Lemma unused_patch_frame_witness :
  exists lines',
    fix_unused_file demo_path [demo_unused 1] (demo_world two_statements) =
      Ok tt (World (<[demo_path := concat lines']> (files (demo_world two_statements)))
                   (out (demo_world two_statements) ++ [unused_banner demo_path])) /\
    length lines' = length (readlines (universal_newlines two_statements)) /\
    forall i l,
      readlines (universal_newlines two_statements) !! i = Some l ->
      lines' !! i =
        Some (if flagged (length (readlines (universal_newlines two_statements)))
                         [demo_unused 1] i
                 && first_match patterns l
              then [] else l).
Proof.
  apply (unused_patch_frame demo_path [demo_unused 1] (demo_world two_statements)
                            two_statements).
  - vm_compute. reflexivity.
  - intros e He. apply list_elem_of_singleton in He. subst e. vm_compute. discriminate.
Defined.

(** C1, counterexample.  The file holds a matching declaration on line 1
    and a call on line 2.  After the patcher the file is the call alone:
    one line instead of two, and line 1 is not blank. *)
Lemma unused_patch_leaves_no_blank_line :
  first_match patterns (T "const x = 1;" ++ [nl]) = true /\
  exists w',
    fix_unused_vars [demo_unused 1] (demo_world two_statements) = Ok tt w' /\
    files w' !! demo_path = Some (T "foo();" ++ [nl]) /\
    length (readlines (T "foo();" ++ [nl])) <> length (readlines two_statements) /\
    readlines (T "foo();" ++ [nl]) !! 0 <> Some [] /\
    readlines (T "foo();" ++ [nl]) !! 0 <> Some [nl].
Proof.
  split; [vm_compute; reflexivity|].
  eexists. split; [vm_compute; reflexivity|].
  split; [vm_compute; reflexivity|].
  vm_compute. repeat split; intros H; discriminate.
Qed.

Lemma no_cr_concat (ls : list text) :
  Forall (Forall (fun c => c <> cr)) ls -> Forall (fun c => c <> cr) (concat ls).
Proof.
  induction 1 as [|l ls Hl Hls IH]; simpl; [constructor|].
  apply Forall_app. auto.
Qed.

Lemma patch_lines_no_cr (es : list diag) (lines lines' : list text) :
  patch_lines lines es = Some lines' ->
  Forall (Forall (fun c => c <> cr)) lines ->
  Forall (Forall (fun c => c <> cr)) lines'.
Proof.
  intros H Hl. apply Forall_lookup. intros i l' Hl'.
  pose proof (patch_lines_length _ _ _ H) as Hlen.
  assert (Hi : i < length lines) by (rewrite <- Hlen; now apply lookup_lt_Some in Hl').
  apply lookup_lt_is_Some in Hi as [l0 Hl0].
  rewrite (patch_lines_lookup _ _ _ H i l0 Hl0) in Hl'. injection Hl' as <-.
  destruct (_ && _); [constructor|].
  now apply (proj1 (Forall_lookup _ _) Hl i l0).
Qed.

(** C4 (amended).  After a pass of the unused-declaration patcher, a second
    pass over the same in-memory line list changes nothing: the entries it
    emptied match none of the patterns.  For the file the first pass
    wrote, a second run changes nothing whenever none of the lines its
    diagnostics point at matches a pattern. *)
Theorem second_pass_changes_nothing (p : text) (es : list diag) (raw : text)
    (lines' : list text) :
  patch_lines (readlines (universal_newlines raw)) (sort_desc es) = Some lines' ->
  patch_lines lines' (sort_desc es) = Some lines' /\
  forall (es2 : list diag) (w1 : world),
    files w1 !! p = Some (concat lines') ->
    (forall e, e ∈ es2 ->
       exists i l,
         py_index (length (readlines (concat lines'))) (d_line e - 1) = Some i /\
         readlines (concat lines') !! i = Some l /\ first_match patterns l = false) ->
    fix_unused_file p es2 w1 = Ok tt (World (files w1) (out w1 ++ [unused_banner p])).
Proof.
  intros H. split; [exact (patch_lines_twice _ _ _ H)|].
  intros es2 w1 Hf Hno.
  assert (Hcr : Forall (fun c => c <> cr) (concat lines')).
  { apply no_cr_concat. apply (patch_lines_no_cr _ _ _ H).
    apply Forall_concat_readlines. apply universal_newlines_no_cr. }
  unfold fix_unused_file, bind, print, read_file. cbn [files out].
  rewrite Hf, (universal_newlines_id _ Hcr).
  rewrite patch_lines_noop.
  - unfold writelines, write_file. cbn [files out].
    rewrite concat_readlines, insert_id by exact Hf. reflexivity.
  - intros e He. apply Hno. now rewrite <- sort_desc_perm.
Qed.

Lemma second_pass_changes_nothing_witness :
  patch_lines [[]; T "var a = 1;" ++ [nl]] (sort_desc [demo_unused 1])
    = Some [[]; T "var a = 1;" ++ [nl]] /\
  forall (es2 : list diag) (w1 : world),
    files w1 !! demo_path = Some (concat [[]; T "var a = 1;" ++ [nl]]) ->
    (forall e, e ∈ es2 ->
       exists i l,
         py_index (length (readlines (concat [[]; T "var a = 1;" ++ [nl]]))) (d_line e - 1)
           = Some i /\
         readlines (concat [[]; T "var a = 1;" ++ [nl]]) !! i = Some l /\
         first_match patterns l = false) ->
    fix_unused_file demo_path es2 w1 =
      Ok tt (World (files w1) (out w1 ++ [unused_banner demo_path])).
Proof.
  apply (second_pass_changes_nothing demo_path [demo_unused 1] two_vars).
  vm_compute. reflexivity.
Defined.

(** C4, counterexample.  [b] on line 1 is unused and is removed; the
    file is then [var a = 1;] alone, on line 1.  A second pass with a
    diagnostic for line 1 (the same one, or the one a linter gives for [a],
    now unused) removes that line too: the second pass changes the file. *)
Lemma second_pass_deletes_more :
  exists w1 w2,
    fix_unused_vars [demo_unused 1] (demo_world two_vars) = Ok tt w1 /\
    fix_unused_vars [demo_unused 1] w1 = Ok tt w2 /\
    files w1 !! demo_path = Some (T "var a = 1;" ++ [nl]) /\
    first_match patterns (T "var a = 1;" ++ [nl]) = true /\
    files w2 !! demo_path = Some [] /\
    files w2 <> files w1.
Proof.
  eexists. eexists.
  split; [vm_compute; reflexivity|].
  split; [vm_compute; reflexivity|].
  split; [vm_compute; reflexivity|].
  split; [vm_compute; reflexivity|].
  split; [vm_compute; reflexivity|].
  intros H. apply (f_equal (fun m => m !! demo_path)) in H.
  vm_compute in H. discriminate.
Qed.

(** ** Standard output only grows *)

Lemma appends_ret {A} (a : A) : appends (ret a).
Proof. intros w. exists []. simpl. now rewrite app_nil_r. Qed.

Lemma appends_raise {A} (e : exn) : appends (@raise A e).
Proof. intros w. exists []. simpl. now rewrite app_nil_r. Qed.

Lemma appends_print (s : text) : appends (print s).
Proof. intros w. exists [s]. reflexivity. Qed.

Lemma appends_read_file (p : text) : appends (read_file p).
Proof.
  intros w. exists []. unfold read_file.
  destruct (files w !! p); simpl; now rewrite app_nil_r.
Qed.

Lemma appends_write_file (p s : text) : appends (write_file p s).
Proof. intros w. exists []. simpl. now rewrite app_nil_r. Qed.

Lemma appends_bind {A B} (m : M A) (k : A -> M B) :
  appends m -> (forall a, appends (k a)) -> appends (bind m k).
Proof.
  intros Hm Hk w. unfold bind. destruct (Hm w) as [m1 H1].
  destruct (m w) as [a w1|e w1].
  - destruct (Hk a w1) as [m2 H2]. exists (m1 ++ m2).
    destruct (k a w1); rewrite H2, H1, app_assoc; reflexivity.
  - exists m1. exact H1.
Qed.

Lemma appends_for_each {A} (xs : list A) (body : A -> M unit) :
  (forall x, appends (body x)) -> appends (for_each xs body).
Proof.
  intros H. induction xs as [|x xs IH]; simpl.
  - apply appends_ret.
  - apply appends_bind; [apply H | intros _; exact IH].
Qed.

Lemma appends_fix_unused_vars (errors : list diag) : appends (fix_unused_vars errors).
Proof.
  unfold fix_unused_vars. apply appends_for_each. intros [p es].
  unfold fix_unused_file.
  apply appends_bind; [apply appends_print | intros _].
  apply appends_bind; [apply appends_read_file | intros content].
  destruct (patch_lines _ _); [apply appends_write_file | apply appends_raise].
Qed.

Lemma appends_fix_require_imports (errors : list diag) :
  appends (fix_require_imports errors).
Proof.
  unfold fix_require_imports. apply appends_for_each. intros [p es].
  unfold fix_require_file.
  apply appends_bind; [apply appends_print | intros _].
  apply appends_bind; [apply appends_read_file | intros content].
  apply appends_write_file.
Qed.

(** C7.  [main] prints as found the number of errors of the report taken
    before any patch, runs the linter again on the patched files and
    prints that count as remaining, and then prints the reduction, found
    minus remaining, exactly when remaining is less than found. *)
Theorem summary_counts (eslint : gmap text text -> option (list file_result))
    (w w1 : world) (data data' : list file_result) :
  eslint (files w) = Some data ->
  patches (errors_of_report data)
    (World (files w) (out w ++ [line_start; line_found (length (errors_of_report data))]))
    = Ok tt w1 ->
  eslint (files w1) = Some data' ->
  (exists msgs,
     out w1 = out w ++ [line_start; line_found (length (errors_of_report data))] ++ msgs) /\
  main eslint w =
    Ok tt (World (files w1)
                 (out w1
                  ++ [line_checking; line_remaining (length (errors_of_report data'))]
                  ++ (if (length (errors_of_report data')
                          <? length (errors_of_report data))%nat
                      then [line_reduced (length (errors_of_report data)
                                          - length (errors_of_report data'))]
                      else []))).
Proof.
  intros H1 Hp H2. split.
  - assert (Ha : appends (patches (errors_of_report data))).
    { apply appends_bind; [apply appends_fix_unused_vars|].
      intros _. apply appends_fix_require_imports. }
    specialize (Ha (World (files w)
      (out w ++ [line_start; line_found (length (errors_of_report data))]))).
    destruct Ha as [msgs Ha]. rewrite Hp in Ha. cbn [out] in Ha.
    exists msgs. rewrite Ha, <- app_assoc. reflexivity.
  - unfold patches, bind in Hp.
    unfold main, bind, print, get_eslint_errors. cbn [files out].
    rewrite H1. cbn [files out]. rewrite <- app_assoc. cbn [app].
    fold line_start. fold (line_found (length (errors_of_report data))).
    destruct (fix_unused_vars (errors_of_report data) _) as [[] w0|e w0] eqn:E1;
      [|discriminate].
    rewrite Hp. cbn [files out]. rewrite H2. cbn [files out].
    fold line_checking. fold (line_remaining (length (errors_of_report data'))).
    destruct (length (errors_of_report data') <? length (errors_of_report data))%nat.
    + fold (line_reduced (length (errors_of_report data) - length (errors_of_report data'))).
      cbn [files out]. rewrite <- !app_assoc. reflexivity.
    + unfold ret. cbn [files out]. rewrite <- !app_assoc. reflexivity.
Qed.

Lemma summary_counts_witness :
  (exists msgs,
     out demo_patched =
       out (demo_world two_statements)
       ++ [line_start; line_found (length (errors_of_report demo_report))] ++ msgs) /\
  FixEslintErrors.main demo_eslint (demo_world two_statements) =
    Ok tt (World (files demo_patched)
                 (out demo_patched
                  ++ [line_checking; line_remaining (length (errors_of_report []))]
                  ++ (if (length (errors_of_report [])
                          <? length (errors_of_report demo_report))%nat
                      then [line_reduced (length (errors_of_report demo_report)
                                          - length (errors_of_report []))]
                      else []))).
Proof.
  apply (summary_counts demo_eslint (demo_world two_statements) demo_patched
                        demo_report []); vm_compute; reflexivity.
Defined.





(** ** The parameter fix *)

Section ParamClaims.
Import FixUnusedParams UnusedParams.

Lemma re_sub_param (name l : text) :
  re_sub (param_pattern name) (param_template name) l = param_sub name None l.
Proof. reflexivity. Qed.




Lemma word_name_lines (name : text) (lines : list text) (i : nat) (l : text) :
  word_name name -> wf_lines lines -> lines !! i = Some l ->
  wf_lines (<[i := param_sub name None l]> lines).
Proof.
  intros Hn Hwf Hl. apply (wf_lines_insert lines Hwf i l _ Hl).
  - apply ins_complete. now apply sub_ins.
  - apply ins_partial. now apply sub_ins.
Qed.

(** After a call of [fix_unused_param] that changed the file, a second
    call with the same file, line number and name changes nothing and
    returns [False]. *)
Lemma second_fix_changes_nothing (path name : text) (n : Z) (w w1 : world) :
  word_name name ->
  fix_unused_param path n name w = Ok true w1 ->
  fix_unused_param path n name w1 = Ok false w1.
Proof.
  intros Hn H.
  destruct (files w !! path) as [raw|] eqn:Hf.
  2:{ unfold fix_unused_param, bind, read_file in H. rewrite Hf in H. discriminate. }
  rewrite (fix_unused_param_eq path name n w raw Hf) in H. cbv zeta in H.
  set (lines := readlines (universal_newlines raw)) in *.
  destruct ((1 <=? n)%Z && (n <=? Z.of_nat (length lines))%Z) eqn:Hr; [|discriminate].
  destruct (lines !! Z.to_nat (n - 1)) as [l|] eqn:Hl; [|discriminate].
  rewrite re_sub_param in H.
  destruct (bool_decide (param_sub name None l <> l)); [|discriminate].
  injection H as <-.
  set (lines' := <[Z.to_nat (n - 1) := param_sub name None l]> lines).
  assert (Hwf : wf_lines lines').
  { apply (word_name_lines name lines _ l Hn); [apply readlines_wf | exact Hl]. }
  assert (Hcr : Forall (fun c => c <> cr) (concat lines')).
  { apply no_cr_concat. apply Forall_insert.
    - apply Forall_concat_readlines, universal_newlines_no_cr.
    - apply (ins_Forall _ l _ underscore_not_cr (sub_ins name Hn l None)).
      assert (Hall : Forall (Forall (fun c => c <> cr)) lines)
        by apply Forall_concat_readlines, universal_newlines_no_cr.
      exact (proj1 (Forall_lookup _ _) Hall _ _ Hl). }
  rewrite (fix_unused_param_eq path name n _ (concat lines')).
  2:{ cbn [files]. apply lookup_insert_eq. }
  cbv zeta. rewrite (universal_newlines_id _ Hcr), (readlines_concat _ Hwf).
  unfold lines' at 1 2. rewrite length_insert, Hr.
  unfold lines'. rewrite list_lookup_insert_eq by now apply lookup_lt_Some in Hl.
  rewrite re_sub_param, (sub_idempotent name Hn).
  rewrite bool_decide_eq_false_2; [reflexivity|]. intros Hne. now apply Hne.
Qed.

End ParamClaims.

(** ** The diagnostic lines of the text stream *)

Section ParamStream.
Import FixUnusedParams UnusedParams.

Lemma go_chr (c : ascii) prev (s : text) cs k :
  go (Chr c) prev (c :: s) cs k = k (Some c) s cs.
Proof. cbn [go]. now rewrite chr_eqb_refl. Qed.

Lemma go_grp_greedy (i : nat) (p : ascii -> bool) (min : nat) prev (u v : text) cs k st :
  all_in p u -> stops p v -> min <= length u ->
  k (last_of prev u) v ((i, u) :: cs) = Some st ->
  go (Grp i (Rep p min Greedy)) prev (u ++ v) cs k = Some st.
Proof.
  intros Hu Hv Hmin Hk. cbn [go].
  apply rep_greedy_ok; [exact Hu | exact Hv | exact Hmin|].
  now rewrite take_consumed.
Qed.

Lemma go_grp_lazy (i : nat) (p : ascii -> bool) (min : nat) prev (u v : text) cs k st :
  all_in p u -> min <= length u ->
  (forall u1 u2 cs', u = u1 ++ u2 -> u2 <> [] -> k (last_of prev u1) (u2 ++ v) cs' = None) ->
  k (last_of prev u) v ((i, u) :: cs) = Some st ->
  go (Grp i (Rep p min Lazy)) prev (u ++ v) cs k = Some st.
Proof.
  intros Hu Hmin Hfail Hk. cbn [go].
  apply rep_lazy_ok; [exact Hu | exact Hmin | |].
  - intros u1 u2 E Hne _. now apply Hfail.
  - now rewrite take_consumed.
Qed.

Lemma nonempty_length (s : text) : nonempty s -> 1 <= length s.
Proof. destruct s; [congruence | simpl; lia]. Qed.

Lemma re_match_diag_line (path ds cs name tail : text) :
  nonempty path -> all_in is_dot path -> Forall (fun c => c <> "("%char) path ->
  nonempty ds -> all_in is_digit ds ->
  nonempty cs -> all_in is_digit cs ->
  word_name name ->
  re_match diag_pattern (diag_line path ds cs name tail) =
    Some (MState (Some "."%char) tail [(4, name); (3, cs); (2, ds); (1, path)]).
Proof.
  intros Hp1 Hp2 Hp3 Hd1 Hd2 Hc1 Hc2 [Hn1 Hn2].
  unfold re_match, diag_pattern, diag_line.
  rewrite go_cat_cons. unfold few1.
  apply go_grp_lazy; [exact Hp2 | now apply nonempty_length | |].
  - intros u1 u2 cs' -> Hne.
    apply Forall_app in Hp3 as [_ Hu2].
    destruct u2 as [|x u2]; [congruence|]. inversion Hu2 as [|? ? Hx _]; subst.
    rewrite go_cat_cons. cbn [go app].
    apply chr_eqb_neq in Hx. now rewrite Hx.
  - rewrite go_cat_cons, go_chr, go_cat_cons. unfold many1.
    apply go_grp_greedy; [exact Hd2 | reflexivity | now apply nonempty_length|].
    rewrite go_cat_cons, go_chr, go_cat_cons.
    apply go_grp_greedy; [exact Hc2 | reflexivity | now apply nonempty_length|].
    rewrite go_cat_cons, go_lit, strip_app, go_cat_cons.
    apply go_grp_greedy; [exact Hn2 | reflexivity | now apply nonempty_length|].
    rewrite go_cat_cons, go_lit, strip_app, go_cat_cons, go_chr, go_cat_nil.
    reflexivity.
Qed.

Lemma go_chr_inv (c : ascii) prev (s : text) cs k st :
  go (Chr c) prev s cs k = Some st ->
  exists s', s = c :: s' /\ k (Some c) s' cs = Some st.
Proof.
  cbn [go]. destruct s as [|x s]; [discriminate|].
  destruct (chr_eqb x c) eqn:E; [|discriminate].
  apply chr_eqb_eq in E. subst x. eauto.
Qed.

Lemma go_lit_inv (u : text) prev (s : text) cs k st :
  go (lit u) prev s cs k = Some st ->
  exists s', s = u ++ s' /\ k (last_of prev u) s' cs = Some st.
Proof.
  rewrite go_lit. destruct (strip u s) as [s'|] eqn:E; [|discriminate].
  apply strip_inv in E. eauto.
Qed.

Lemma go_grp_rep_inv (i : nat) (p : ascii -> bool) (min : nat) (g : greed)
    prev (s : text) cs k st :
  go (Grp i (Rep p min g)) prev s cs k = Some st ->
  exists u s', s = u ++ s' /\ all_in p u /\ min <= length u /\
               k (last_of prev u) s' ((i, u) :: cs) = Some st.
Proof.
  cbn [go]. intros H. apply rep_sound in H as (u & s' & -> & Hu & Hmin & Hk).
  rewrite take_consumed in Hk. eauto 10.
Qed.

(** A line that [re.match] accepts is in the expected format, and its
    groups are the path, the two numbers and a name of word characters. *)
Lemma re_match_diag_inv (l : text) (m : mstate) :
  re_match diag_pattern l = Some m ->
  exists path ds cs name,
    l = diag_line path ds cs name (m_rest m) /\
    m_caps m = [(4, name); (3, cs); (2, ds); (1, path)] /\
    all_in is_digit ds /\ word_name name.
Proof.
  unfold re_match, diag_pattern, few1, many1. intros H.
  rewrite go_cat_cons in H. apply go_grp_rep_inv in H as (path & s1 & -> & _ & _ & H).
  rewrite go_cat_cons in H. apply go_chr_inv in H as (s2 & -> & H).
  rewrite go_cat_cons in H. apply go_grp_rep_inv in H as (ds & s3 & -> & Hds & _ & H).
  rewrite go_cat_cons in H. apply go_chr_inv in H as (s4 & -> & H).
  rewrite go_cat_cons in H. apply go_grp_rep_inv in H as (cs & s5 & -> & _ & _ & H).
  rewrite go_cat_cons in H. apply go_lit_inv in H as (s6 & -> & H).
  rewrite go_cat_cons in H. apply go_grp_rep_inv in H as (name & s7 & -> & Hn & Hlen & H).
  rewrite go_cat_cons in H. apply go_lit_inv in H as (s8 & -> & H).
  rewrite go_cat_cons in H. apply go_chr_inv in H as (s9 & -> & H).
  rewrite go_cat_nil in H. injection H as <-. cbn [m_rest m_caps].
  exists path, ds, cs, name. split; [reflexivity | split; [reflexivity|]].
  split; [exact Hds|]. split; [|exact Hn].
  intros ->. simpl in Hlen. lia.
Qed.

End ParamStream.

Section ParamIdempotence.
Import FixUnusedParams UnusedParams.

(** [fix_unused_param] reads the files only, and leaves the output as it
    is. *)
Lemma fix_unused_param_result (path name : text) (n : Z) (w : world) (raw : text) :
  files w !! path = Some raw ->
  exists r : option text,
    forall o,
      fix_unused_param path n name (World (files w) o) =
      match r with
      | Some c => Ok true (World (<[path := c]> (files w)) o)
      | None => Ok false (World (files w) o)
      end.
Proof.
  intros Hf.
  destruct (if ((1 <=? n) && (n <=? Z.of_nat (length (readlines (universal_newlines raw)))))%Z
            then readlines (universal_newlines raw) !! Z.to_nat (n - 1) else None)
    as [l|] eqn:El.
  - destruct (bool_decide (re_sub (param_pattern name) (param_template name) l <> l)) eqn:Eb.
    + eexists (Some _). intros o.
      rewrite (fix_unused_param_eq path name n (World (files w) o) raw Hf).
      cbv zeta. rewrite El, Eb. reflexivity.
    + exists None. intros o.
      rewrite (fix_unused_param_eq path name n (World (files w) o) raw Hf).
      cbv zeta. rewrite El, Eb. reflexivity.
  - exists None. intros o.
    rewrite (fix_unused_param_eq path name n (World (files w) o) raw Hf).
    cbv zeta. rewrite El. reflexivity.
Qed.

Lemma process_line_twice (n : nat) (l : text) (w : world) (n1 : nat) (w1 : world) :
  process_line n l w = Ok n1 w1 -> process_line n1 l w1 = Ok n1 w1.
Proof.
  destruct w as [f o]. unfold process_line.
  destruct (re_match diag_pattern l) as [m|] eqn:Em.
  2:{ unfold ret. intros [= <- <-]. reflexivity. }
  apply re_match_diag_inv in Em as (path & ds & cs & name & _ & -> & _ & Hname).
  cbn [group Nat.eqb]. unfold bind, path_exists. cbn [files].
  destruct (f !! path) as [raw|] eqn:Hf.
  2:{ rewrite bool_decide_eq_false_2 by (intros [x Hx]; discriminate).
      unfold ret. intros [= <- <-]. cbn [files]. rewrite Hf.
      rewrite bool_decide_eq_false_2 by (intros [x Hx]; discriminate). reflexivity. }
  rewrite bool_decide_eq_true_2 by eauto.
  destruct (fix_unused_param_result path name (int_of_digits ds) (World f o) raw Hf)
    as [[c|] Hr]; cbn [files] in Hr; rewrite (Hr o).
  - unfold print, ret. cbn [files out]. intros [= <- <-]. cbn [files].
    rewrite lookup_insert_eq. rewrite bool_decide_eq_true_2 by eauto.
    assert (H2 : fix_unused_param path (int_of_digits ds) name (World (<[path := c]> f) o)
                 = Ok false (World (<[path := c]> f) o))
      by (apply (second_fix_changes_nothing path name _ (World f o)); [exact Hname | apply Hr]).
    destruct (fix_unused_param_result path name (int_of_digits ds)
                (World (<[path := c]> f) o) c (lookup_insert_eq _ _ _)) as [[c2|] Hr2];
      cbn [files] in Hr2.
    + rewrite (Hr2 o) in H2. discriminate.
    + rewrite Hr2. reflexivity.
  - unfold ret. intros [= <- <-]. cbn [files]. rewrite Hf.
    rewrite bool_decide_eq_true_2 by eauto. rewrite (Hr o). reflexivity.
Qed.

(** C10.  After a call of [fix_unused_param] that changed the file, a
    second call with the same file, line number and parameter name changes
    nothing and returns [False]: the pattern finds no occurrence in its own
    output.  The names [main] passes are of this kind, so reading a line of
    the stream a second time fixes nothing more. *)
Theorem fix_unused_param_idempotent (path name : text) (n : Z) (w w1 : world) :
  word_name name ->
  fix_unused_param path n name w = Ok true w1 ->
  fix_unused_param path n name w1 = Ok false w1 /\
  forall (k : nat) (l : text) (k1 : nat) (w2 : world),
    process_line k l w = Ok k1 w2 -> process_line k1 l w2 = Ok k1 w2.
Proof.
  intros Hn H. split; [now apply (second_fix_changes_nothing path name n w) |].
  intros k l k1 w2. apply process_line_twice.
Qed.

Lemma fix_unused_param_idempotent_witness :
  fix_unused_param demo_path 1 (T "unused")
    (World {[ demo_path := demo_signature_fixed ++ [nl] ]} [])
  = Ok false (World {[ demo_path := demo_signature_fixed ++ [nl] ]} []) /\
  forall (k : nat) (l : text) (k1 : nat) (w2 : world),
    process_line k l (demo_world (demo_signature ++ [nl])) = Ok k1 w2 ->
    process_line k1 l w2 = Ok k1 w2.
Proof.
  apply (fix_unused_param_idempotent demo_path (T "unused") 1
           (demo_world (demo_signature ++ [nl]))).
  - split; [discriminate | repeat apply Forall_cons_2; try apply Forall_nil_2; reflexivity].
  - vm_compute. reflexivity.
Defined.

End ParamIdempotence.

Section ParamExample.
Import FixUnusedParams UnusedParams.

Lemma word_name_unused : word_name (T "unused").
Proof.
  split; [discriminate|].
  repeat apply Forall_cons_2; try apply Forall_nil_2; reflexivity.
Qed.

Lemma sub_demo_signature (eol : text) :
  eol = [] \/ eol = [nl] ->
  re_sub (param_pattern (T "unused")) (param_template (T "unused")) (demo_signature ++ eol)
  = demo_signature_fixed ++ eol.
Proof. intros [-> | ->]; vm_compute; reflexivity. Qed.

(** C6.  The file exists and its line N, given by the digits of the
    diagnostic, is [foo(bar: string, unused: number) {}].  After [main] has
    read the diagnostic for ['unused'], line N of the file is
    [foo(bar: string, _unused: number) {}], with [bar] as it was, and
    every other line is unchanged. *)
Theorem param_fix_example (w : world) (path ds cs raw eol tail : text) :
  nonempty path -> all_in is_dot path -> Forall (fun c => c <> "("%char) path ->
  nonempty ds -> all_in is_digit ds ->
  nonempty cs -> all_in is_digit cs ->
  files w !! path = Some raw ->
  (1 <= int_of_digits ds)%Z ->
  eol = [] \/ eol = [nl] ->
  readlines (universal_newlines raw) !! Z.to_nat (int_of_digits ds - 1)
    = Some (demo_signature ++ eol) ->
  exists content,
    main [diag_line path ds cs (T "unused") tail] w =
      Ok tt (World (<[path := content]> (files w))
                   (out w ++ [line_fixed path (int_of_digits ds) (T "unused");
                              line_total 1])) /\
    readlines (universal_newlines content) =
      <[Z.to_nat (int_of_digits ds - 1) := demo_signature_fixed ++ eol]>
        (readlines (universal_newlines raw)).
Proof.
  intros Hp1 Hp2 Hp3 Hd1 Hd2 Hc1 Hc2 Hf Hn Heol Hl.
  set (lines := readlines (universal_newlines raw)) in *.
  set (i := Z.to_nat (int_of_digits ds - 1)) in *.
  exists (concat (<[i := demo_signature_fixed ++ eol]> lines)).
  assert (Hlt : i < length lines) by now apply lookup_lt_Some in Hl.
  pose proof (sub_demo_signature eol Heol) as Hsub.
  split.
  - unfold main, bind. cbn [process_lines]. unfold bind, process_line.
    rewrite (re_match_diag_line path ds cs (T "unused") tail) by
      (assumption || apply word_name_unused).
    cbn [m_caps group Nat.eqb]. unfold bind, path_exists. rewrite Hf.
    rewrite bool_decide_eq_true_2 by eauto.
    rewrite (fix_unused_param_eq path (T "unused") (int_of_digits ds) w raw Hf).
    cbv zeta. fold lines. fold i.
    replace ((1 <=? int_of_digits ds)%Z && (int_of_digits ds <=? Z.of_nat (length lines))%Z)
      with true by (symmetry; apply andb_true_iff; unfold i in Hlt; lia).
    rewrite Hl, Hsub.
    rewrite bool_decide_eq_true_2.
    + unfold print, ret. cbn [files out]. rewrite <- app_assoc. reflexivity.
    + destruct Heol as [-> | ->]; vm_compute; discriminate.
  - assert (Hwf : wf_lines (<[i := demo_signature_fixed ++ eol]> lines)).
    { rewrite <- Hsub, re_sub_param.
      apply (word_name_lines _ lines i _ word_name_unused); [apply readlines_wf | exact Hl]. }
    rewrite universal_newlines_id, (readlines_concat _ Hwf); [reflexivity|].
    apply no_cr_concat. apply Forall_insert.
    + apply Forall_concat_readlines, universal_newlines_no_cr.
    + destruct Heol as [-> | ->]; repeat apply Forall_cons_2; try apply Forall_nil_2;
        intros H; vm_compute in H; discriminate.
Qed.

Lemma param_fix_example_witness :
  exists content,
    main [demo_diag] (demo_world (demo_signature ++ [nl])) =
      Ok tt (World (<[demo_path := content]> (files (demo_world (demo_signature ++ [nl]))))
                   (out (demo_world (demo_signature ++ [nl]))
                    ++ [line_fixed demo_path (int_of_digits (T "1")) (T "unused");
                        line_total 1])) /\
    readlines (universal_newlines content) =
      <[Z.to_nat (int_of_digits (T "1") - 1) := demo_signature_fixed ++ [nl]]>
        (readlines (universal_newlines (demo_signature ++ [nl]))).
Proof.
  apply (param_fix_example (demo_world (demo_signature ++ [nl])) demo_path (T "1") (T "18")
           (demo_signature ++ [nl]) [nl] [nl]).
  - discriminate.
  - repeat apply Forall_cons_2; try apply Forall_nil_2; reflexivity.
  - repeat apply Forall_cons_2; try apply Forall_nil_2; discriminate.
  - discriminate.
  - repeat apply Forall_cons_2; try apply Forall_nil_2; reflexivity.
  - discriminate.
  - repeat apply Forall_cons_2; try apply Forall_nil_2; reflexivity.
  - vm_compute. reflexivity.
  - vm_compute. discriminate.
  - right. reflexivity.
  - vm_compute. reflexivity.
Defined.

End ParamExample.

(** ** The order in which diagnostics are applied *)

Section Order.
Import FixUnusedParams UnusedParams.

Lemma fix_unused_param_out (path name : text) (n : Z) (w : world) (raw : text) :
  files w !! path = Some raw ->
  exists b w', fix_unused_param path n name w = Ok b w' /\ out w' = out w.
Proof.
  intros Hf. rewrite (fix_unused_param_eq path name n w raw Hf). cbv zeta.
  destruct (if (_ && _)%bool then _ else _) as [l|]; [|eauto].
  destruct (bool_decide _); eauto.
Qed.

Lemma process_line_out (n : nat) (l : text) (w : world) :
  exists n' w',
    process_line n l w = Ok n' w' /\
    ((n' = n /\ out w' = out w) \/
     (n' = S n /\ exists msg, fixed_message l = Some msg /\ out w' = out w ++ [msg])).
Proof.
  unfold process_line, fixed_message.
  destruct (re_match diag_pattern l) as [m|]; [|exists n, w; auto].
  unfold bind, path_exists.
  destruct (files w !! group 1 (m_caps m)) as [raw|] eqn:Hf.
  - rewrite bool_decide_eq_true_2 by eauto.
    destruct (fix_unused_param_out (group 1 (m_caps m)) (group 4 (m_caps m))
                (int_of_digits (group 2 (m_caps m))) w raw Hf) as (b & w' & -> & Ho).
    destruct b.
    + eexists. eexists. split; [reflexivity|]. right. split; [reflexivity|].
      eexists. split; [reflexivity|]. cbn [out]. now rewrite Ho.
    + exists n, w'. auto.
  - rewrite bool_decide_eq_false_2 by (intros [x Hx]; discriminate).
    exists n, w. auto.
Qed.

Lemma process_lines_out (stdin : list text) :
  forall n w,
    exists n' w' msgs,
      process_lines n stdin w = Ok n' w' /\ out w' = out w ++ msgs /\
      n' = n + length msgs /\ sublist msgs (omap fixed_message stdin).
Proof.
  induction stdin as [|l stdin IH]; intros n w.
  - exists n, w, []. simpl. rewrite app_nil_r. repeat split; [lia | constructor].
  - cbn [process_lines]. unfold bind.
    destruct (process_line_out n l w) as (n1 & w1 & -> & Hcase).
    destruct (IH n1 w1) as (n' & w' & msgs & -> & Ho & Hn & Hs).
    destruct Hcase as [[-> Ho1] | [-> (msg & Hm & Ho1)]].
    + exists n', w', msgs. rewrite Ho, Ho1. repeat split; [exact Hn|].
      cbn [omap list_omap]. destruct (fixed_message l); [now apply sublist_cons | exact Hs].
    + exists n', w', (msg :: msgs). rewrite Ho, Ho1, <- app_assoc.
      repeat split; [simpl; lia|].
      cbn [omap list_omap]. rewrite Hm. now apply sublist_skip.
Qed.

(** C2 (amended).  The unused-declaration patcher sorts the diagnostics of
    a file by line number, highest first and stably, before it touches the
    line list, and each step keeps the length of the list, so the indices
    of the diagnostics still to come stay valid.  The parameter script
    does not sort: its fixes are applied, and reported, in the order of
    the input stream. *)
Theorem application_order :
  (forall es : list diag,
     StronglySorted line_ge (sort_desc es) /\ sort_desc es ≡ₚ es /\
     forall z, filter (fun x => d_line x = z) (sort_desc es)
               = filter (fun x => d_line x = z) es) /\
  (forall (p : text) (es : list diag) (w : world),
     fix_unused_file p es w =
       match files w !! p with
       | Some raw =>
           match patch_lines (readlines (universal_newlines raw)) (sort_desc es) with
           | Some lines =>
               Ok tt (World (<[p := concat lines]> (files w)) (out w ++ [unused_banner p]))
           | None => Raise IndexError (World (files w) (out w ++ [unused_banner p]))
           end
       | None => Raise FileNotFoundError (World (files w) (out w ++ [unused_banner p]))
       end) /\
  (forall (lines : list text) (e : diag),
     match patch_line lines e with
     | Some lines' => length lines' = length lines
     | None => True
     end) /\
  (forall (stdin : list text) (w : world),
     exists w' msgs,
       main stdin w = Ok tt w' /\
       out w' = out w ++ msgs ++ [line_total (length msgs)] /\
       sublist msgs (omap fixed_message stdin)).
Proof.
  split; [|split; [|split]].
  - intros es. split; [apply sort_desc_sorted | split; [apply sort_desc_perm|]].
    intros z. apply sort_desc_stable.
  - intros p es w. unfold fix_unused_file, bind, print, read_file. cbn [files out].
    destruct (files w !! p) as [raw|]; [|reflexivity].
    destruct (patch_lines _ _); reflexivity.
  - intros lines e. destruct (patch_line lines e) as [lines'|] eqn:E; [|exact I].
    now apply patch_line_length in E.
  - intros stdin w. unfold main, bind.
    destruct (process_lines_out stdin 0 w) as (n' & w' & msgs & -> & Ho & Hn & Hs).
    eexists. exists msgs. split; [reflexivity|]. cbn [out]. split; [|exact Hs].
    rewrite Ho, <- app_assoc. simpl in Hn. subst n'. reflexivity.
Qed.

(** C2, counterexample.  Two diagnostics for the same file arrive with
    line 1 before line 2; the parameter script fixes line 1 first, then
    line 2. *)
Lemma param_fixes_in_stream_order :
  exists w',
    main ascending_stdin (demo_world two_functions) = Ok tt w' /\
    out w' = [T "Fixed: a.ts:1 - prefixed 'a' with underscore";
              T "Fixed: a.ts:2 - prefixed 'c' with underscore";
              line_total 2] /\
    files w' !! demo_path =
      Some (T "f(_a: number) {}" ++ [nl] ++ T "g(_c: string) {}" ++ [nl]).
Proof.
  eexists. split; [vm_compute; reflexivity|].
  split; vm_compute; reflexivity.
Qed.

End Order.

(** ** The require-to-import pass *)

Section RequireImports.

Lemma nquotes_app (u v : text) : nquotes (u ++ v) = nquotes u + nquotes v.
Proof. induction u as [|c u IH]; simpl; [reflexivity | rewrite IH; lia]. Qed.

Lemma nquotes_skip_cons (n : nat) (c : ascii) (s : text) :
  n <= nquotes s -> n <= nquotes (c :: s).
Proof. simpl. lia. Qed.

Lemma nquotes_skip_app (n : nat) (u v : text) : n <= nquotes v -> n <= nquotes (u ++ v).
Proof. rewrite nquotes_app. lia. Qed.

Lemma nquotes_hit (n : nat) (c : ascii) (s : text) :
  quote c = true -> n <= nquotes s -> S n <= nquotes (c :: s).
Proof. simpl. intros ->. lia. Qed.

Lemma nquotes_none (s : text) : all_in not_quote s -> nquotes s = 0.
Proof.
  induction 1 as [|c s Hc Hs IH]; [reflexivity|]. simpl. rewrite IH.
  unfold not_quote, none_of in Hc. unfold quote.
  destruct (one_of [sq; dq] c); [discriminate | reflexivity].
Qed.

Ltac den_inv :=
  repeat match goal with
         | H : exists _, _ |- _ => destruct H
         | H : _ /\ _ |- _ => destruct H
         end; subst.

Ltac count_quotes :=
  repeat first
    [ apply Nat.le_0_l
    | apply nquotes_hit; [eassumption|]
    | apply nquotes_skip_cons
    | apply nquotes_skip_app ].

(** A match of any of the three patterns holds two quote characters. *)
Lemma require_two_quotes adv p (v : text) n cs :
  try_match pat_require adv p v = Some (n, cs) -> 2 <= nquotes v.
Proof.
  intros H. apply try_match_sound in H as (p' & s' & D & _).
  unfold pat_require in D.
  cbn [den cat foldr lit map T list_ascii_of_string many many1] in D.
  den_inv. count_quotes.
Qed.

Lemma require_braces_two_quotes adv p (v : text) n cs :
  try_match pat_require_braces adv p v = Some (n, cs) -> 2 <= nquotes v.
Proof.
  intros H. apply try_match_sound in H as (p' & s' & D & _).
  unfold pat_require_braces in D.
  cbn [den cat foldr lit map T list_ascii_of_string many many1] in D.
  den_inv. count_quotes.
Qed.

Lemma dynamic_import_two_quotes adv p (v : text) n cs :
  try_match pat_dynamic_import adv p v = Some (n, cs) -> 2 <= nquotes v.
Proof.
  intros H. apply try_match_sound in H as (p' & s' & D & _).
  unfold pat_dynamic_import in D.
  cbn [den cat foldr lit map T list_ascii_of_string many many1] in D.
  den_inv. count_quotes.
Qed.

Lemma sub_at_few_quotes (r : re) tpl (s : text) :
  (forall adv p v n cs, try_match r adv p v = Some (n, cs) -> 2 <= nquotes v) ->
  nquotes s <= 1 ->
  forall prev, sub_at r tpl 0 prev s = s.
Proof.
  intros Hr Hs. apply sub_at_none. intros u v p ->.
  destruct (try_match r false p v) as [[n cs]|] eqn:E; [|reflexivity].
  apply Hr in E. rewrite nquotes_app in Hs. lia.
Qed.

Lemma go_cls (p : ascii -> bool) (x : ascii) prev (s : text) cs k :
  p x = true -> go (Cls p) prev (x :: s) cs k = k (Some x) s cs.
Proof. intros H. cbn [go]. now rewrite H. Qed.

Lemma go_rep_greedy (p : ascii -> bool) (min : nat) prev (u v : text) cs k st :
  all_in p u -> stops p v -> min <= length u ->
  k (last_of prev u) v cs = Some st ->
  go (Rep p min Greedy) prev (u ++ v) cs k = Some st.
Proof. intros Hu Hv Hmin Hk. cbn [go]. now apply rep_greedy_ok. Qed.

Lemma nquotes_class (p : ascii -> bool) (u : text) :
  (forall c, p c = true -> quote c = false) -> all_in p u -> nquotes u = 0.
Proof.
  intros Hp. induction 1 as [|c u Hc Hu IH]; [reflexivity|].
  simpl. now rewrite (Hp c Hc), IH.
Qed.

Lemma space_not_quote (c : ascii) : is_space c = true -> quote c = false.
Proof. intros H. by_cases_on_char c. Qed.

Lemma word_not_quote (c : ascii) : is_word c = true -> quote c = false.
Proof. intros H. by_cases_on_char c. Qed.

Lemma not_quote_quote (c : ascii) : not_quote c = true -> quote c = false.
Proof.
  unfold not_quote, none_of, quote. destruct (one_of [sq; dq] c); [discriminate | reflexivity].
Qed.

Lemma nquotes_zero (s : text) : nquotes s = 0 -> all_in not_quote s.
Proof.
  induction s as [|c s IH]; [constructor|]. simpl.
  destruct (quote c) eqn:E; [lia|]. intros H. constructor; [|now apply IH].
  unfold not_quote, none_of. unfold quote in E. now rewrite E.
Qed.

(** The text before the first quote character is determined. *)
Lemma first_quote_unique (a a' b b' : text) (x x' : ascii) :
  nquotes a = 0 -> nquotes a' = 0 -> quote x = true -> quote x' = true ->
  a ++ x :: b = a' ++ x' :: b' -> a = a'.
Proof.
  revert a'. induction a as [|c a IH]; intros a' Ha Ha' Hx Hx' E.
  - destruct a' as [|c' a']; [reflexivity|]. simpl in E. injection E as <- _.
    simpl in Ha'. rewrite Hx in Ha'. lia.
  - destruct a' as [|c' a']; simpl in E; injection E as -> E.
    + simpl in Ha. rewrite Hx' in Ha. lia.
    + f_equal. simpl in Ha, Ha'.
      apply (IH a'); [destruct (quote c') | destruct (quote c') | | |]; auto; lia.
Qed.

Ltac assoc_eq := repeat (progress (simpl; rewrite <- ?app_assoc)); reflexivity.

Ltac no_quotes :=
  repeat
    (simpl;
     first
       [ rewrite nquotes_app
       | rewrite (nquotes_class is_space) by (assumption || exact space_not_quote)
       | rewrite (nquotes_class is_word) by (assumption || exact word_not_quote)
       | rewrite (nquotes_class not_quote) by (assumption || exact not_quote_quote)
       | match goal with
         | Hz : nquotes ?g = 0 |- context [nquotes ?g] => rewrite Hz
         end ]);
  simpl; try lia.


Lemma require_braces_first_quote adv p (w : text) (x : ascii) (rest : text) n cs :
  nquotes w = 0 -> quote x = true -> nquotes rest <= 1 ->
  try_match pat_require_braces adv p (w ++ x :: rest) = Some (n, cs) ->
  exists w0, w = w0 ++ T "require(".
Proof.
  intros Hw Hx Hrest H. apply try_match_sound in H as (p' & s' & D & _).
  unfold pat_require_braces in D.
  cbn [den cat foldr lit map T list_ascii_of_string many many1] in D.
  den_inv.
  match goal with
  | E : _ = ?c1 :: ?c2 :: ?c3 :: ?c4 :: ?c5 :: ?u1 ++ ?b1 :: ?g1 ++ ?b2 :: ?u3 ++ ?c6 :: ?u4 ++ _
    |- _ =>
      assert (Hg : nquotes g1 = 0);
      [ pose proof (f_equal nquotes E) as En;
        repeat (simpl in En; rewrite ?nquotes_app in En);
        repeat match goal with
               | Hq : quote ?c = true |- _ => progress (rewrite Hq in En)
               end;
        lia
      | exists (c1 :: c2 :: c3 :: c4 :: c5 :: u1 ++ b1 :: g1 ++ b2 :: u3 ++ c6 :: u4);
        symmetry;
        eapply (first_quote_unique _ w); [| exact Hw | | exact Hx | rewrite E; assoc_eq];
        [no_quotes | eassumption] ]
  end.
Qed.

Lemma dynamic_import_first_quote adv p (w : text) (x : ascii) (rest : text) n cs :
  nquotes w = 0 -> quote x = true ->
  try_match pat_dynamic_import adv p (w ++ x :: rest) = Some (n, cs) ->
  w = T "import(".
Proof.
  intros Hw Hx H. apply try_match_sound in H as (p' & s' & D & _).
  unfold pat_dynamic_import in D.
  cbn [den cat foldr lit map T list_ascii_of_string many many1] in D.
  den_inv. symmetry.
  match goal with
  | E : _ = _ |- _ =>
      eapply (first_quote_unique _ w); [| exact Hw | | exact Hx | rewrite E; reflexivity];
      [reflexivity | eassumption]
  end.
Qed.


(** Copying a stretch of text in which the pattern matches nowhere. *)
Lemma sub_at_copy_gen (r : re) tpl (u v : text) :
  (forall u1 u2 p, u = u1 ++ u2 -> u2 <> [] -> try_match r false p (u2 ++ v) = None) ->
  forall prev, sub_at r tpl 0 prev (u ++ v) = u ++ sub_at r tpl 0 (last_of prev u) v.
Proof.
  induction u as [|c u IH]; intros H prev; [reflexivity|].
  cbn [app]. rewrite sub_at_nomatch.
  - rewrite IH, last_of_cons; [reflexivity|].
    intros u1 u2 p -> Hne. now apply (H (c :: u1) u2).
  - apply (H [] (c :: u)); [reflexivity | discriminate].
Qed.







Lemma strip_none (s t : text) : starts_with s t = false -> strip s t = None.
Proof.
  revert t. induction s as [|c s IH]; intros t H; [discriminate|].
  destruct t as [|d t]; [reflexivity|]. simpl in *.
  unfold chr_eqb in *. rewrite Ascii.eqb_sym.
  destruct (Ascii.eqb c d); [now apply IH | reflexivity].
Qed.

Lemma try_match_lit_first (s : text) (rs : list re) adv p (v : text) :
  starts_with s v = false -> try_match (cat (lit s :: rs)) adv p v = None.
Proof.
  intros H. unfold try_match. now rewrite go_cat_cons, go_lit, (strip_none s v H).
Qed.

Lemma starts_with_app_long (s u x : text) :
  length s <= length u -> starts_with s (u ++ x) = starts_with s u.
Proof.
  revert u. induction s as [|c s IH]; intros u H; [reflexivity|].
  destruct u as [|d u]; simpl in *; [lia|].
  rewrite IH by lia. reflexivity.
Qed.

Lemma starts_with_app_short (s u x : text) :
  length u < length s -> starts_with s (u ++ x) = true ->
  starts_with (drop (length u) s) x = true.
Proof.
  revert s. induction u as [|d u IH]; intros s H E; [exact E|].
  destruct s as [|c s]; simpl in *; [lia|].
  apply andb_true_iff in E as [_ E]. apply IH; [lia | exact E].
Qed.

Lemma occurs_in_suffix (s u1 u2 : text) :
  occurs_in s (u1 ++ u2) = false -> starts_with s u2 = false.
Proof.
  induction u1 as [|c u1 IH]; intros H.
  - destruct u2; simpl in H; apply orb_false_iff in H; tauto.
  - simpl in H. apply orb_false_iff in H as [_ H]. now apply IH.
Qed.

Lemma absent_before (s pre y : text) :
  absent s pre -> no_overlap s y ->
  forall u1 u2, pre = u1 ++ u2 -> u2 <> [] -> starts_with s (u2 ++ y) = false.
Proof.
  intros Ha Ho u1 u2 -> Hne.
  destruct (le_lt_dec (length s) (length u2)) as [Hl|Hl].
  - rewrite starts_with_app_long by exact Hl. now apply (occurs_in_suffix s u1 u2).
  - destruct (starts_with s (u2 ++ y)) eqn:E; [|reflexivity].
    apply starts_with_app_short in E; [|exact Hl].
    rewrite Ho in E; [discriminate|].
    destruct u2; [congruence | simpl in *; lia].
Qed.

(** A pattern that begins with the literal [s] copies a text in which [s]
    does not occur. *)
Lemma sub_at_before (s : text) (rs : list re) tpl (pre y : text) prev :
  absent s pre -> no_overlap s y ->
  sub_at (cat (lit s :: rs)) tpl 0 prev (pre ++ y)
  = pre ++ sub_at (cat (lit s :: rs)) tpl 0 (last_of prev pre) y.
Proof.
  intros Ha Ho. apply sub_at_copy_gen. intros u1 u2 p E Hne.
  apply try_match_lit_first. now apply (absent_before s pre y Ha Ho u1 u2).
Qed.










End RequireImports.
(** * Further properties *)

(** ** Grouping by file *)

Section Grouping.

Lemma dict_append_keys (k : text) (e : diag) (d : list (text * list diag)) :
  map fst (dict_append k e d) =
  if bool_decide (k ∈ map fst d) then map fst d else map fst d ++ [k].
Proof.
  induction d as [|[k' es] d IH]; cbn [dict_append map fst].
  - rewrite bool_decide_eq_false_2; [reflexivity | apply not_elem_of_nil].
  - destruct (bool_decide (k = k')) eqn:E.
    + apply bool_decide_eq_true in E. subst k'.
      rewrite bool_decide_eq_true_2 by (left). reflexivity.
    + apply bool_decide_eq_false in E. cbn [map fst]. rewrite IH.
      destruct (bool_decide (k ∈ map fst d)) eqn:E2.
      * apply bool_decide_eq_true in E2.
        rewrite bool_decide_eq_true_2 by (now right). reflexivity.
      * apply bool_decide_eq_false in E2.
        rewrite bool_decide_eq_false_2; [reflexivity|].
        intros H. apply elem_of_cons in H as [H|H]; congruence.
Qed.

Lemma dict_append_other (k : text) (e : diag) (d : list (text * list diag)) p es :
  p <> k -> ((p, es) ∈ dict_append k e d <-> (p, es) ∈ d).
Proof.
  intros Hne. induction d as [|[k' es'] d IH]; simpl.
  - split; intros H.
    + apply list_elem_of_singleton in H. congruence.
    + inversion H.
  - destruct (bool_decide (k = k')) eqn:E.
    + apply bool_decide_eq_true in E. subst k'.
      rewrite !elem_of_cons. split; intros [H|H]; try (right; exact H); congruence.
    + rewrite !elem_of_cons, IH. reflexivity.
Qed.

Lemma dict_append_same (k : text) (e : diag) (d : list (text * list diag)) es' :
  NoDup (map fst d) ->
  ((k, es') ∈ dict_append k e d <->
   (exists es, (k, es) ∈ d /\ es' = es ++ [e]) \/ ((k ∉ map fst d) /\ es' = [e])).
Proof.
  induction d as [|[k' es0] d IH]; simpl; intros Hnd.
  - rewrite list_elem_of_singleton. split.
    + intros [= ->]. right. split; [apply not_elem_of_nil | reflexivity].
    + intros [(es & H & _) | [_ ->]]; [inversion H | reflexivity].
  - apply NoDup_cons in Hnd as [Hk' Hnd].
    destruct (bool_decide (k = k')) eqn:E.
    + apply bool_decide_eq_true in E. subst k'. rewrite elem_of_cons. split.
      * intros [[= ->] | H].
        -- left. exists es0. split; [left | reflexivity].
        -- exfalso. apply Hk'. apply list_elem_of_fmap. now exists (k, es').
      * intros [(es & H & ->) | [H _]].
        -- apply elem_of_cons in H as [[= ->] | H]; [now left|].
           exfalso. apply Hk'. apply list_elem_of_fmap. now exists (k, es).
        -- exfalso. apply H. left.
    + apply bool_decide_eq_false in E. rewrite elem_of_cons, (IH Hnd). split.
      * intros [[= -> _] | [(es & H & ->) | [H ->]]]; [congruence | |].
        -- left. exists es. split; [now right | reflexivity].
        -- right. split; [|reflexivity].
           intros H'. apply elem_of_cons in H' as [H'|H']; congruence.
      * intros [(es & H & ->) | [H ->]].
        -- apply elem_of_cons in H as [[= -> _] | H]; [congruence|].
           right. left. eauto.
        -- right. right. split; [|reflexivity]. intros H'. apply H. now right.
Qed.

Lemma group_by_file_snoc (l : list diag) (e : diag) :
  group_by_file (l ++ [e]) = dict_append (d_file e) e (group_by_file l).
Proof. unfold group_by_file. now rewrite foldl_app. Qed.

Lemma group_by_file_spec (l : list diag) :
  NoDup (map fst (group_by_file l)) /\
  forall p es,
    (p, es) ∈ group_by_file l <->
    es = filter (fun e => d_file e = p) l /\ es <> [].
Proof.
  induction l as [|e l IH] using rev_ind.
  - split; [constructor|]. intros p es. split; [intros H; inversion H|].
    intros [-> H]. exfalso. apply H. reflexivity.
  - destruct IH as [Hnd IH]. rewrite group_by_file_snoc. split.
    + rewrite dict_append_keys. destruct (bool_decide _) eqn:E; [exact Hnd|].
      apply bool_decide_eq_false in E. apply NoDup_app. split; [exact Hnd|].
      split; [|apply NoDup_singleton].
      intros x Hx Hx'. apply list_elem_of_singleton in Hx'. congruence.
    + intros p es. rewrite filter_app.
      destruct (decide (p = d_file e)) as [->|Hne].
      * rewrite (dict_append_same _ _ _ _ Hnd).
        rewrite filter_cons_True by reflexivity. rewrite filter_nil.
        split.
        -- intros [(es0 & H & ->) | [H ->]].
           ++ apply IH in H as [-> _]. split; [reflexivity|].
              intros E. apply app_eq_nil in E as [_ E]. discriminate.
           ++ split; [|discriminate].
              destruct (filter (fun e0 => d_file e0 = d_file e) l) as [|x xs] eqn:F;
                [reflexivity|].
              exfalso. apply H. apply list_elem_of_fmap.
              exists (d_file e, x :: xs). split; [reflexivity|].
              apply IH. split; [now rewrite F | discriminate].
        -- intros [-> _].
           destruct (filter (fun e0 => d_file e0 = d_file e) l) as [|x xs] eqn:F.
           ++ right. split; [|reflexivity].
              intros H. apply list_elem_of_fmap in H as ([k es0] & Hk & H). simpl in Hk.
              subst k. apply IH in H as [H1 H2]. rewrite F in H1. congruence.
           ++ left. exists (x :: xs). split; [|reflexivity].
              apply IH. split; [now rewrite F | discriminate].
      * rewrite (dict_append_other _ _ _ _ _ Hne), IH.
        rewrite filter_cons_False by congruence. rewrite filter_nil, app_nil_r.
        reflexivity.
Qed.

(** X1.  [files_to_fix] has one entry per file, and the entry of a file
    holds the diagnostics of that file, all of them, in their order in
    the input; no entry is empty. *)
Theorem group_by_file_partition (errs : list diag) :
  NoDup (map fst (group_by_file errs)) /\
  (forall p es,
     (p, es) ∈ group_by_file errs <->
     es = filter (fun e => d_file e = p) errs /\ es <> []) /\
  (forall e, e ∈ errs -> d_file e ∈ map fst (group_by_file errs)).
Proof.
  destruct (group_by_file_spec errs) as [Hnd H]. split; [exact Hnd | split; [exact H|]].
  intros e He. apply list_elem_of_fmap.
  exists (d_file e, filter (fun e0 => d_file e0 = d_file e) errs). split; [reflexivity|].
  apply H. split; [reflexivity|].
  intros E. assert (Hin : e ∈ filter (fun e0 => d_file e0 = d_file e) errs)
    by (apply list_elem_of_filter; auto).
  rewrite E in Hin. inversion Hin.
Qed.

End Grouping.

(** ** The matcher accepts what the patterns describe *)

Section Adequacy.

Lemma rep_complete (p : ascii -> bool) (g : greed) (u : text) :
  all_in p u ->
  forall min prev (v : text) cs k,
    min <= length u ->
    (forall cs', exists st, k (last_of prev u) v cs' = Some st) ->
    exists st, rep p min g prev (u ++ v) cs k = Some st.
Proof.
  induction 1 as [|c u Hc Hu IH]; intros min prev v cs k Hmin Hk.
  - simpl in Hmin. assert (min = 0) as -> by lia. rewrite last_of_nil in Hk.
    destruct (Hk cs) as [st Hst]. cbn [app].
    destruct v as [|x v]; destruct g; cbn [rep]; rewrite ?Hst; eauto.
    destruct (p x); [|eauto].
    destruct (rep p (pred 0) Greedy (Some x) v cs k); eauto.
  - cbn [app]. simpl in Hmin.
    destruct (IH (pred min) (Some c) v cs k) as [st Hst]; [lia | |].
    { intros cs'. rewrite <- (last_of_cons prev). apply Hk. }
    destruct g; cbn [rep]; rewrite Hc, Hst; [eauto|].
    destruct min; [|eauto].
    destruct (k prev (c :: u ++ v) cs); eauto.
Qed.

Lemma go_complete (r : re) :
  forall prev (s : text) prev' (s' : text),
    den r prev s prev' s' ->
    forall k, (forall cs', exists st, k prev' s' cs' = Some st) ->
    forall cs, exists st, go r prev s cs k = Some st.
Proof.
  induction r; cbn [den go]; intros prev s prev' s' D k Hk cs.
  - destruct D as [-> ->]. apply Hk.
  - destruct D as [-> ->]. rewrite chr_eqb_refl. apply Hk.
  - destruct D as (x & -> & Hx & ->). rewrite Hx. apply Hk.
  - destruct D as (u & -> & Hu & Hmin & ->). now apply rep_complete.
  - destruct D as (pm & sm & D1 & D2).
    apply (IHr1 _ _ _ _ D1). intros cs'. now apply (IHr2 _ _ _ _ D2).
  - apply (IHr _ _ _ _ D). intros cs'. apply Hk.
  - destruct D as (-> & -> & ->). apply Hk.
  - destruct D as (E & -> & ->). rewrite E. apply Hk.
  - destruct D as (E & -> & ->). rewrite E. apply Hk.
  - destruct D as ((p2 & s2 & D) & -> & ->).
    destruct (IHr _ _ _ _ D (fun p' s' cs' => Some (MState p' s' cs'))
                  ltac:(eauto) cs) as [st ->].
    apply Hk.
Qed.

Lemma matches_den (r : re) (l : text) :
  matches r l = true <-> exists prev' s', den r None l prev' s'.
Proof.
  unfold matches, re_match. split.
  - destruct (go r None l [] accept) as [st|] eqn:E; [|discriminate]. intros _.
    apply go_sound in E as (p' & s' & _ & D & _). eauto.
  - intros (p' & s' & D).
    destruct (go_complete r _ _ _ _ D accept ltac:(unfold accept; eauto) []) as [st ->].
    reflexivity.
Qed.

Lemma den_cat_cons (r : re) (rs : list re) prev (s : text) prev' (s' : text) :
  den (cat (r :: rs)) prev s prev' s' <->
  exists pm sm, den r prev s pm sm /\ den (cat rs) pm sm prev' s'.
Proof. reflexivity. Qed.

Lemma den_lit (u : text) :
  forall prev (s : text) prev' (s' : text),
    den (lit u) prev s prev' s' <-> s = u ++ s' /\ prev' = last_of prev u.
Proof.
  induction u as [|c u IH]; intros prev s prev' s'.
  - cbn. split; intros [-> ->]; auto.
  - change (lit (c :: u)) with (Cat (Chr c) (lit u)). cbn [den]. split.
    + intros (pm & sm & [-> ->] & D). apply IH in D as [-> ->].
      now rewrite last_of_cons.
    + intros [-> ->]. exists (Some c), (u ++ s'). split; [auto|].
      apply IH. now rewrite last_of_cons.
Qed.

Lemma den_rep (p : ascii -> bool) (min : nat) (g : greed) prev (u s' : text) :
  all_in p u -> min <= length u ->
  den (Rep p min g) prev (u ++ s') (last_of prev u) s'.
Proof. intros Hu Hmin. cbn. exists u. auto. Qed.

Lemma den_chr (c : ascii) prev (s' : text) : den (Chr c) prev (c :: s') (Some c) s'.
Proof. cbn. auto. Qed.

Lemma den_tail (tail : text) prev :
  all_in is_space tail ->
  exists prev' s', den (cat [many is_space; Eol]) prev tail prev' s'.
Proof.
  intros Ht. exists (last_of prev tail), [].
  apply den_cat_cons. exists (last_of prev tail), []. split.
  - rewrite <- (app_nil_r tail) at 1. apply den_rep; [exact Ht | lia].
  - cbn. eexists _, _. repeat split.
Qed.

Lemma is_space_nl : is_space nl = true.
Proof. reflexivity. Qed.

Lemma den_tail_inv (s : text) prev prev' (s' : text) :
  den (cat [many is_space; Eol]) prev s prev' s' -> all_in is_space s.
Proof.
  intros D. apply den_cat_cons in D as (pm & sm & D1 & D2).
  cbn in D1, D2. destruct D1 as (u & -> & Hu & _ & _). destruct D2 as (? & ? & (E & _ & _) & _).
  apply Forall_app. split; [exact Hu|].
  destruct sm as [|c [|d sm]]; [constructor | | discriminate].
  apply chr_eqb_eq in E. subst c. repeat constructor.
Qed.

Ltac den_split D :=
  let pm := fresh "pm" in
  let sm := fresh "sm" in
  let D1 := fresh "D" in
  apply den_cat_cons in D as (pm & sm & D1 & D).

Ltac den_rep_inv D u :=
  let Hu := fresh "H" u in
  let Hm := fresh "Hm" u in
  cbn [den many many1 few few1] in D; destruct D as (u & -> & Hu & Hm & ->).

Lemma pat_binding_den (kw l : text) :
  matches (pat_binding kw) l = true <->
  exists ws s1 name s2 rhs tail,
    l = ws ++ kw ++ s1 ++ name ++ s2 ++ "="%char :: rhs ++ ";"%char :: tail /\
    all_in is_space ws /\
    all_in is_space s1 /\ nonempty s1 /\ word_name name /\ all_in is_space s2 /\
    all_in is_dot rhs /\ all_in is_space tail.
Proof.
  rewrite matches_den. unfold pat_binding. split.
  - intros (p' & s' & D).
    den_split D. cbn in D0. destruct D0 as (_ & -> & ->).
    den_split D. den_rep_inv D0 ws.
    den_split D. apply den_lit in D0 as [-> ->].
    den_split D. den_rep_inv D0 s1.
    den_split D. den_rep_inv D0 name.
    den_split D. den_rep_inv D0 s2.
    den_split D. cbn in D0. destruct D0 as [-> ->].
    den_split D. den_rep_inv D0 rhs.
    den_split D. cbn in D0. destruct D0 as [-> ->].
    apply den_tail_inv in D.
    eexists ws, s1, name, s2, rhs, _. split; [reflexivity|].
    repeat split; try assumption.
    + intros ->. simpl in Hms1. lia.
    + intros ->. simpl in Hmname. lia.
  - intros (ws & s1 & name & s2 & rhs & tail & -> & Hws & Hs1 & Hn1 & [Hn Hw] & Hs2 & Hr & Ht).
    destruct (den_tail tail (Some ";"%char) Ht) as (p' & s' & Dt).
    exists p', s'.
    apply den_cat_cons. eexists _, _. split; [cbn; auto|].
    apply den_cat_cons. eexists _, _. split; [apply den_rep; [exact Hws | lia]|].
    apply den_cat_cons. eexists _, _. split; [apply den_lit; auto|].
    apply den_cat_cons. eexists _, _. split;
      [apply den_rep; [exact Hs1 | now apply nonempty_length]|].
    apply den_cat_cons. eexists _, _. split;
      [apply den_rep; [exact Hw | now apply nonempty_length]|].
    apply den_cat_cons. eexists _, _. split; [apply den_rep; [exact Hs2 | lia]|].
    apply den_cat_cons. eexists _, _. split; [apply den_chr|].
    apply den_cat_cons. eexists _, _. split; [apply den_rep; [exact Hr | lia]|].
    apply den_cat_cons. eexists _, _. split; [apply den_chr|].
    exact Dt.
Qed.

Lemma pat_import_braces_den (l : text) :
  matches pat_import_braces l = true <-> import_braces_line l.
Proof.
  rewrite matches_den. unfold pat_import_braces, import_braces_line. split.
  - intros (p' & s' & D).
    den_split D. cbn in D0. destruct D0 as (_ & -> & ->).
    den_split D. den_rep_inv D0 ws.
    den_split D. apply den_lit in D0 as [-> ->].
    den_split D. den_rep_inv D0 s1.
    den_split D. cbn in D0. destruct D0 as [-> ->].
    den_split D. den_rep_inv D0 names.
    den_split D. cbn in D0. destruct D0 as [-> ->].
    den_split D. den_rep_inv D0 s2.
    den_split D. apply den_lit in D0 as [-> ->].
    den_split D. den_rep_inv D0 src.
    den_split D. cbn in D0. destruct D0 as [-> ->].
    apply den_tail_inv in D.
    eexists ws, s1, names, s2, src, _. split; [reflexivity|].
    repeat split; assumption.
  - intros (ws & s1 & names & s2 & src & tail & -> & Hws & Hs1 & Hnames & Hs2 & Hsrc & Ht).
    destruct (den_tail tail (Some ";"%char) Ht) as (p' & s' & Dt).
    exists p', s'.
    apply den_cat_cons. eexists _, _. split; [cbn; auto|].
    apply den_cat_cons. eexists _, _. split; [apply den_rep; [exact Hws | lia]|].
    apply den_cat_cons. eexists _, _. split; [apply den_lit; auto|].
    apply den_cat_cons. eexists _, _. split; [apply den_rep; [exact Hs1 | lia]|].
    apply den_cat_cons. eexists _, _. split; [apply den_chr|].
    apply den_cat_cons. eexists _, _. split; [apply den_rep; [exact Hnames | lia]|].
    apply den_cat_cons. eexists _, _. split; [apply den_chr|].
    apply den_cat_cons. eexists _, _. split; [apply den_rep; [exact Hs2 | lia]|].
    apply den_cat_cons. eexists _, _. split; [apply den_lit; auto|].
    apply den_cat_cons. eexists _, _. split; [apply den_rep; [exact Hsrc | lia]|].
    apply den_cat_cons. eexists _, _. split; [apply den_chr|].
    exact Dt.
Qed.

Lemma pat_import_default_den (l : text) :
  matches pat_import_default l = true <-> import_default_line l.
Proof.
  rewrite matches_den. unfold pat_import_default, import_default_line. split.
  - intros (p' & s' & D).
    den_split D. cbn in D0. destruct D0 as (_ & -> & ->).
    den_split D. den_rep_inv D0 ws.
    den_split D. apply den_lit in D0 as [-> ->].
    den_split D. den_rep_inv D0 s1.
    den_split D. den_rep_inv D0 name.
    den_split D. den_rep_inv D0 s2.
    den_split D. apply den_lit in D0 as [-> ->].
    den_split D. den_rep_inv D0 src.
    den_split D. cbn in D0. destruct D0 as [-> ->].
    apply den_tail_inv in D.
    eexists ws, s1, name, s2, src, _. split; [reflexivity|].
    repeat split; try assumption.
    + intros ->. simpl in Hms1. lia.
    + intros ->. simpl in Hmname. lia.
    + intros ->. simpl in Hms2. lia.
  - intros (ws & s1 & name & s2 & src & tail & -> & Hws & Hs1 & Hn1 & [Hn Hw] & Hs2 & Hn2
            & Hsrc & Ht).
    destruct (den_tail tail (Some ";"%char) Ht) as (p' & s' & Dt).
    exists p', s'.
    apply den_cat_cons. eexists _, _. split; [cbn; auto|].
    apply den_cat_cons. eexists _, _. split; [apply den_rep; [exact Hws | lia]|].
    apply den_cat_cons. eexists _, _. split; [apply den_lit; auto|].
    apply den_cat_cons. eexists _, _. split;
      [apply den_rep; [exact Hs1 | now apply nonempty_length]|].
    apply den_cat_cons. eexists _, _. split;
      [apply den_rep; [exact Hw | now apply nonempty_length]|].
    apply den_cat_cons. eexists _, _. split;
      [apply den_rep; [exact Hs2 | now apply nonempty_length]|].
    apply den_cat_cons. eexists _, _. split; [apply den_lit; auto|].
    apply den_cat_cons. eexists _, _. split; [apply den_rep; [exact Hsrc | lia]|].
    apply den_cat_cons. eexists _, _. split; [apply den_chr|].
    exact Dt.
Qed.

Lemma first_match_removable (l : text) : first_match patterns l = true <-> removable l.
Proof.
  unfold patterns. cbn [first_match].
  change pat_const with (pat_binding (T "const")).
  change pat_let with (pat_binding (T "let")).
  change pat_var with (pat_binding (T "var")).
  unfold removable, binding_line. split.
  - destruct (matches (pat_binding (T "const")) l) eqn:E1.
    { intros _. left. apply pat_binding_den in E1
        as (ws & s1 & name & s2 & rhs & tail & E & H).
      exists ws, (T "const"), s1, name, s2, rhs, tail.
      split; [exact E|]. split; [tauto|]. split; [|tauto].
      apply elem_of_cons; auto. }
    destruct (matches (pat_binding (T "let")) l) eqn:E2.
    { intros _. left. apply pat_binding_den in E2
        as (ws & s1 & name & s2 & rhs & tail & E & H).
      exists ws, (T "let"), s1, name, s2, rhs, tail.
      split; [exact E|]. split; [tauto|]. split; [|tauto].
      apply elem_of_cons; right; apply elem_of_cons; auto. }
    destruct (matches (pat_binding (T "var")) l) eqn:E3.
    { intros _. left. apply pat_binding_den in E3
        as (ws & s1 & name & s2 & rhs & tail & E & H).
      exists ws, (T "var"), s1, name, s2, rhs, tail.
      split; [exact E|]. split; [tauto|]. split; [|tauto].
      do 2 (apply elem_of_cons; right). apply elem_of_cons; auto. }
    destruct (matches pat_import_braces l) eqn:E4.
    { intros _. right. left. now apply pat_import_braces_den. }
    destruct (matches pat_import_default l) eqn:E5; [|discriminate].
    intros _. right. right. now apply pat_import_default_den.
  - intros [(ws & kw & s1 & name & s2 & rhs & tail & E & Hws & Hkw & H) | [H | H]].
    + assert (Hm : matches (pat_binding kw) l = true).
      { apply pat_binding_den. exists ws, s1, name, s2, rhs, tail. tauto. }
      repeat (apply elem_of_cons in Hkw as [->|Hkw]); [| | |inversion Hkw];
        rewrite ?Hm; repeat (destruct (matches _ l)); reflexivity.
    + apply pat_import_braces_den in H. rewrite H.
      repeat (destruct (matches _ l)); reflexivity.
    + apply pat_import_default_den in H. rewrite H.
      repeat (destruct (matches _ l)); reflexivity.
Qed.

End Adequacy.

(** ** The unused-declaration patcher: which lines go, and when it fails *)

Section UnusedDeclarations.

Lemma fix_unused_file_eq (p : text) (es : list diag) (w : world) :
  fix_unused_file p es w =
  match files w !! p with
  | Some raw =>
      match patch_lines (readlines (universal_newlines raw)) (sort_desc es) with
      | Some lines =>
          Ok tt (World (<[p := concat lines]> (files w)) (out w ++ [unused_banner p]))
      | None => Raise IndexError (World (files w) (out w ++ [unused_banner p]))
      end
  | None => Raise FileNotFoundError (World (files w) (out w ++ [unused_banner p]))
  end.
Proof.
  unfold fix_unused_file, bind, print, read_file. cbn [files out].
  destruct (files w !! p) as [raw|]; [|reflexivity].
  destruct (patch_lines _ _); reflexivity.
Qed.

Lemma py_index_None (n : nat) (z : Z) :
  py_index n z = None <-> (z < - Z.of_nat n \/ Z.of_nat n <= z)%Z.
Proof.
  unfold py_index.
  destruct ((0 <=? z)%Z && (z <? Z.of_nat n)%Z) eqn:E1.
  - apply andb_true_iff in E1. split; [discriminate | lia].
  - destruct ((- Z.of_nat n <=? z)%Z && (z <? 0)%Z) eqn:E2.
    + apply andb_true_iff in E2. split; [discriminate | lia].
    + apply andb_false_iff in E1. apply andb_false_iff in E2.
      split; [intros _; lia | reflexivity].
Qed.

Lemma patch_lines_None (es : list diag) (lines : list text) :
  patch_lines lines es = None <->
  exists e, e ∈ es /\ py_index (length lines) (d_line e - 1) = None.
Proof.
  split.
  - intros H.
    destruct (decide (Exists (fun e => py_index (length lines) (d_line e - 1) = None) es))
      as [Hex|Hno].
    + apply Exists_exists in Hex. exact Hex.
    + destruct (patch_lines_total es lines) as [l' Hl']; [|congruence].
      intros e He Hn. apply Hno. apply Exists_exists. eauto.
  - intros (e & He & Hn).
    destruct (patch_lines lines es) as [l'|] eqn:E; [|reflexivity].
    destruct (patch_lines_valid _ _ _ E e He) as [i Hi]. congruence.
Qed.

Lemma flagged_ext (n : nat) (es es' : list diag) (i : nat) :
  (forall z, z ∈ map d_line es -> z ∈ map d_line es') ->
  flagged n es i = true -> flagged n es' i = true.
Proof.
  intros H Hf. apply flagged_true in Hf as (e & He & Hi).
  assert (Hz : d_line e ∈ map d_line es') by (apply H, list_elem_of_fmap; eauto).
  apply list_elem_of_fmap in Hz as (e' & Hd & He').
  apply flagged_true. exists e'. split; [exact He' | now rewrite <- Hd].
Qed.

Lemma patch_lines_ext (lines : list text) (es es' : list diag) :
  (forall z, z ∈ map d_line es <-> z ∈ map d_line es') ->
  patch_lines lines es = patch_lines lines es'.
Proof.
  intros H.
  assert (Hnone : forall a b : list diag,
             (forall z, z ∈ map d_line a -> z ∈ map d_line b) ->
             patch_lines lines a = None -> patch_lines lines b = None).
  { intros a b Hab Ha. apply patch_lines_None in Ha as (e & He & Hn).
    assert (Hz : d_line e ∈ map d_line b) by (apply Hab, list_elem_of_fmap; eauto).
    apply list_elem_of_fmap in Hz as (e' & Hd & He').
    apply patch_lines_None. exists e'. split; [exact He' | now rewrite <- Hd]. }
  destruct (patch_lines lines es) as [l1|] eqn:E1.
  - destruct (patch_lines lines es') as [l2|] eqn:E2.
    + f_equal. apply list_eq. intros i.
      destruct (lines !! i) as [l|] eqn:El.
      * rewrite (patch_lines_lookup _ _ _ E1 i l El), (patch_lines_lookup _ _ _ E2 i l El).
        replace (flagged (length lines) es' i) with (flagged (length lines) es i);
          [reflexivity|].
        destruct (flagged (length lines) es i) eqn:F1.
        -- symmetry. eapply flagged_ext; [|exact F1]. intros z. apply H.
        -- destruct (flagged (length lines) es' i) eqn:F2; [|reflexivity].
           rewrite <- F1. eapply flagged_ext; [|exact F2]. intros z. apply H.
      * apply lookup_ge_None in El.
        rewrite !(proj2 (lookup_ge_None _ _)); [reflexivity | |].
        -- now rewrite (patch_lines_length _ _ _ E2).
        -- now rewrite (patch_lines_length _ _ _ E1).
    + apply (Hnone es' es) in E2; [congruence|]. intros z. apply H.
  - symmetry. apply (Hnone es es'); [|exact E1]. intros z. apply H.
Qed.

Lemma map_d_line_sort_desc (es : list diag) (z : Z) :
  z ∈ map d_line (sort_desc es) <-> z ∈ map d_line es.
Proof. now rewrite sort_desc_perm. Qed.

(** X2.  What the unused-declaration patcher does to a file depends only
    on the set of line numbers of the file's diagnostics: their order,
    their repetitions and their messages play no part, because an entry
    of the line list is emptied in place and the list is written once. *)
Theorem unused_patch_order_free (p : text) (es es' : list diag) (w : world) :
  (forall z, z ∈ map d_line es <-> z ∈ map d_line es') ->
  fix_unused_file p es w = fix_unused_file p es' w.
Proof.
  intros H. rewrite !fix_unused_file_eq.
  destruct (files w !! p) as [raw|]; [|reflexivity].
  rewrite (patch_lines_ext _ (sort_desc es) (sort_desc es')); [reflexivity|].
  intros z. rewrite !map_d_line_sort_desc. apply H.
Qed.

Lemma unused_patch_order_free_witness :
  fix_unused_file demo_path [demo_unused 1; demo_unused 2] (demo_world two_vars) =
  fix_unused_file demo_path [demo_unused 2; demo_unused 1; demo_unused 2]
                  (demo_world two_vars).
Proof.
  apply (unused_patch_order_free demo_path [demo_unused 1; demo_unused 2]
           [demo_unused 2; demo_unused 1; demo_unused 2] (demo_world two_vars)).
  intros z. cbn [map demo_unused d_line]. rewrite !elem_of_cons. tauto.
Defined.

(** X3.  The lines the patcher empties are the flagged lines of three
    forms and no others: a declaration [const], [let] or [var] of one name
    with an initialiser, an import of names in braces, and a default
    import; in each form the text up to the last semicolon holds no line
    feed and only white space follows that semicolon. *)
Theorem removed_lines :
  (forall l, first_match patterns l = true <-> removable l) /\
  (forall (lines lines' : list text) (es : list diag),
     patch_lines lines es = Some lines' ->
     forall i l, lines !! i = Some l ->
       (flagged (length lines) es i = true -> removable l -> lines' !! i = Some []) /\
       (lines' !! i <> Some l -> flagged (length lines) es i = true /\ removable l)).
Proof.
  split; [exact first_match_removable|]. intros lines lines' es H i l Hl.
  rewrite (patch_lines_lookup _ _ _ H i l Hl). split.
  - intros Hf Hr. apply first_match_removable in Hr. now rewrite Hf, Hr.
  - intros Hne. destruct (flagged (length lines) es i); [|cbn [andb] in Hne; congruence].
    destruct (first_match patterns l) eqn:Fm; [|cbn [andb] in Hne; congruence].
    split; [reflexivity | now apply first_match_removable].
Qed.

Lemma all_in_app (p : ascii -> bool) (u v : text) :
  all_in p u -> all_in p v -> all_in p (u ++ v).
Proof. intros Hu Hv. apply Forall_app. auto. Qed.

(** X4.  A declaration is removed together with whatever follows it on
    its line: when the line goes on after the declaration's semicolon and
    ends with a semicolon again, the pattern still matches the whole
    line, so the further statements are deleted with the declaration. *)
Theorem statements_sharing_a_line (kw name rhs more tail : text) :
  kw ∈ [T "const"; T "let"; T "var"] ->
  word_name name -> all_in is_dot rhs -> all_in is_dot more -> all_in is_space tail ->
  first_match patterns
    (kw ++ T " " ++ name ++ T " =" ++ rhs ++ T ";" ++ more ++ T ";" ++ tail) = true.
Proof.
  intros Hkw Hn Hr Hm Ht. apply first_match_removable. left.
  exists [], kw, (T " "), name, (T " "), (rhs ++ T ";" ++ more), tail.
  split; [repeat (progress (simpl; rewrite <- ?app_assoc)); reflexivity|].
  split; [constructor|]. split; [exact Hkw|].
  split; [repeat constructor|]. split; [discriminate|]. split; [exact Hn|].
  split; [repeat constructor|]. split; [|exact Ht].
  apply all_in_app; [exact Hr|]. apply all_in_app; [repeat constructor | exact Hm].
Qed.

Lemma statements_sharing_a_line_witness :
  first_match patterns
    (T "const" ++ T " " ++ T "x" ++ T " =" ++ T " 1" ++ T ";" ++ T " keep()" ++ T ";" ++ [nl])
  = true.
Proof.
  apply (statements_sharing_a_line (T "const") (T "x") (T " 1") (T " keep()") [nl]).
  - apply elem_of_cons. now left.
  - split; [discriminate | repeat constructor].
  - repeat constructor.
  - repeat constructor.
  - repeat constructor.
Defined.

Lemma first_nonspace_unique (u v x y : text) (c d : ascii) :
  all_in is_space u -> all_in is_space v -> is_space c = false -> is_space d = false ->
  u ++ c :: x = v ++ d :: y -> c = d.
Proof.
  intros Hu. revert v. induction Hu as [|a u Ha Hu IH]; intros v Hv Hc Hd E.
  - destruct Hv as [|b v Hb Hv]; simpl in E; injection E as E _; congruence.
  - destruct Hv as [|b v Hb Hv]; simpl in E; injection E as E1 E.
    + congruence.
    + apply (IH v Hv Hc Hd E).
Qed.

Lemma last_nonspace_unique (a b : text) (c d : ascii) (u v : text) :
  all_in is_space u -> all_in is_space v -> is_space c = false -> is_space d = false ->
  a ++ c :: u = b ++ d :: v -> c = d.
Proof.
  intros Hu Hv Hc Hd E. apply (f_equal reverse) in E.
  rewrite !reverse_app, !reverse_cons, <- !app_assoc in E.
  apply (first_nonspace_unique (reverse u) (reverse v) (reverse a) (reverse b) c d);
    [now apply Forall_reverse | now apply Forall_reverse | exact Hc | exact Hd | exact E].
Qed.

Lemma removable_ends (l : text) :
  removable l -> exists body tail, l = body ++ ";"%char :: tail /\ all_in is_space tail.
Proof.
  intros [(ws & kw & s1 & name & s2 & rhs & tail & -> & H)
         | [(ws & s1 & names & s2 & src & tail & -> & H)
           | (ws & s1 & name & s2 & src & tail & -> & H)]].
  - exists (ws ++ kw ++ s1 ++ name ++ s2 ++ "="%char :: rhs), tail.
    split; [|tauto]. repeat (progress (simpl; rewrite <- ?app_assoc)). reflexivity.
  - exists (ws ++ T "import" ++ s1 ++ "{"%char :: names ++ "}"%char :: s2 ++ T "from" ++ src),
      tail.
    split; [|tauto]. repeat (progress (simpl; rewrite <- ?app_assoc)). reflexivity.
  - exists (ws ++ T "import" ++ s1 ++ name ++ s2 ++ T "from" ++ src), tail.
    split; [|tauto]. repeat (progress (simpl; rewrite <- ?app_assoc)). reflexivity.
Qed.

(** X5.  A line whose last character that is not white space is not a
    semicolon is never removed: the first line of a declaration that
    runs over several lines stays, flagged or not. *)
Theorem unterminated_line_is_kept (body tail : text) (c : ascii) :
  is_space c = false -> c <> ";"%char -> all_in is_space tail ->
  first_match patterns (body ++ c :: tail) = false.
Proof.
  intros Hc Hne Ht.
  destruct (first_match patterns (body ++ c :: tail)) eqn:E; [|reflexivity].
  exfalso. apply first_match_removable, removable_ends in E as (b & u & E & Hu).
  apply Hne. eapply (last_nonspace_unique body b c _ tail u); eauto.
Qed.

Lemma unterminated_line_is_kept_witness :
  first_match patterns (T "const options = " ++ "{"%char :: [nl]) = false.
Proof.
  apply (unterminated_line_is_kept (T "const options = ") [nl] "{"%char).
  - reflexivity.
  - discriminate.
  - repeat constructor.
Defined.

(** X6.  The failures of the patcher for one file.  When the file is
    missing, and when some diagnostic of the file has a line number
    beyond the last line, or so far below 1 that Python's indexing from
    the end leaves the list too, the exception ends the run after the
    banner is printed and before anything is written: the fixes of the
    other diagnostics of that file are lost with it. *)
Theorem unused_file_failures (p : text) (es : list diag) (w : world) :
  (files w !! p = None ->
   fix_unused_file p es w =
     Raise FileNotFoundError (World (files w) (out w ++ [unused_banner p]))) /\
  (forall raw e,
     files w !! p = Some raw -> e ∈ es ->
     (Z.of_nat (length (readlines (universal_newlines raw))) < d_line e \/
      d_line e <= - Z.of_nat (length (readlines (universal_newlines raw))))%Z ->
     fix_unused_file p es w =
       Raise IndexError (World (files w) (out w ++ [unused_banner p]))).
Proof.
  split.
  - intros H. now rewrite fix_unused_file_eq, H.
  - intros raw e Hf He Hz. rewrite fix_unused_file_eq, Hf.
    rewrite (proj2 (patch_lines_None _ _)); [reflexivity|].
    exists e. split; [now rewrite sort_desc_perm|].
    apply py_index_None. lia.
Qed.

(** X7.  A line number from 0 down to 1 minus the number of lines is
    taken by Python's indexing from the end of the list: line 0 is the
    last line of the file, line -1 the one before it.  The patcher then
    treats the diagnostic as one for that line. *)
Theorem line_zero_is_the_last_line (lines : list text) (e : diag) :
  (1 - Z.of_nat (length lines) <= d_line e <= 0)%Z ->
  patch_line lines e = patch_line lines (with_line e (d_line e + Z.of_nat (length lines))).
Proof.
  intros H. unfold patch_line, with_line. cbn [d_line].
  replace (py_index (length lines) (d_line e + Z.of_nat (length lines) - 1))
    with (py_index (length lines) (d_line e - 1)); [reflexivity|].
  unfold py_index.
  replace ((0 <=? d_line e - 1)%Z && (d_line e - 1 <? Z.of_nat (length lines))%Z)
    with false by (symmetry; apply andb_false_iff; left; apply Z.leb_gt; lia).
  replace ((- Z.of_nat (length lines) <=? d_line e - 1)%Z && (d_line e - 1 <? 0)%Z)
    with true by (symmetry; apply andb_true_iff; split;
                  [apply Z.leb_le | apply Z.ltb_lt]; lia).
  replace ((0 <=? d_line e + Z.of_nat (length lines) - 1)%Z
           && (d_line e + Z.of_nat (length lines) - 1 <? Z.of_nat (length lines))%Z)
    with true by (symmetry; apply andb_true_iff; split;
                  [apply Z.leb_le | apply Z.ltb_lt]; lia).
  f_equal. lia.
Qed.

Lemma line_zero_is_the_last_line_witness :
  patch_line (readlines two_statements) (demo_unused 0) =
  patch_line (readlines two_statements)
             (with_line (demo_unused 0)
                        (d_line (demo_unused 0) + Z.of_nat (length (readlines two_statements)))).
Proof.
  apply (line_zero_is_the_last_line (readlines two_statements) (demo_unused 0)).
  vm_compute. split; discriminate.
Defined.

End UnusedDeclarations.

(** ** Which files a run can change *)

Section Frames.
Import FixUnusedParams UnusedParams.

Lemma frame_refl (S : text -> Prop) (w w' : world) : files w' = files w -> frame S w w'.
Proof. intros E. unfold frame. now rewrite E. Qed.

Lemma frame_trans (S : text -> Prop) (w w1 w2 : world) :
  frame S w w1 -> frame S w1 w2 -> frame S w w2.
Proof.
  intros [D1 F1] [D2 F2]. split; [congruence|].
  intros p Hp. now rewrite (F2 p Hp), (F1 p Hp).
Qed.

Lemma frame_weaken (S S' : text -> Prop) (w w' : world) :
  (forall p, S p -> S' p) -> frame S w w' -> frame S' w w'.
Proof. intros H [D F]. split; [exact D|]. intros p Hp. apply F. auto. Qed.

Lemma frame_insert (S : text -> Prop) (w : world) (p c : text) (o : list text) :
  S p -> is_Some (files w !! p) -> frame S w (World (<[p := c]> (files w)) o).
Proof.
  intros Hp Hsome. split; cbn [files].
  - now apply dom_insert_lookup_L.
  - intros q Hq. apply lookup_insert_ne. congruence.
Qed.

Lemma final_bind {A B} (m : M A) (k : A -> M B) (w : world) :
  final (bind m k w) =
  match m w with Ok a w1 => final (k a w1) | Raise _ w1 => w1 end.
Proof. unfold bind. now destruct (m w). Qed.

Lemma touches_ret {A} (S : text -> Prop) (a : A) : touches_only S (ret a).
Proof. intros w. now apply frame_refl. Qed.

Lemma touches_print (S : text -> Prop) (s : text) : touches_only S (print s).
Proof. intros w. now apply frame_refl. Qed.

Lemma touches_bind {A B} (S : text -> Prop) (m : M A) (k : A -> M B) :
  touches_only S m -> (forall a, touches_only S (k a)) -> touches_only S (bind m k).
Proof.
  intros Hm Hk w. rewrite final_bind. specialize (Hm w).
  destruct (m w) as [a w1|e w1]; cbn [final] in Hm; [|exact Hm].
  eapply frame_trans; [exact Hm | apply Hk].
Qed.

Lemma touches_for_each {A} (S : text -> Prop) (xs : list A) (body : A -> M unit) :
  (forall x, x ∈ xs -> touches_only S (body x)) -> touches_only S (for_each xs body).
Proof.
  induction xs as [|x xs IH]; intros H; cbn [for_each]; [apply touches_ret|].
  apply touches_bind; [apply H; left|]. intros _. apply IH.
  intros y Hy. apply H. now right.
Qed.

Lemma touches_get_eslint_errors (eslint : gmap text text -> option (list file_result))
    (S : text -> Prop) :
  touches_only S (get_eslint_errors eslint).
Proof.
  intros w. unfold get_eslint_errors. destruct (eslint (files w)); now apply frame_refl.
Qed.

Lemma touches_fix_unused_file (S : text -> Prop) (p : text) (es : list diag) :
  S p -> touches_only S (fix_unused_file p es).
Proof.
  intros Hp w. rewrite fix_unused_file_eq.
  destruct (files w !! p) as [raw|] eqn:E; [|now apply frame_refl].
  destruct (patch_lines _ _); [|now apply frame_refl].
  cbn [final]. apply frame_insert; [exact Hp | now rewrite E].
Qed.

Lemma fix_require_file_eq (p : text) (w : world) :
  fix_require_file p w =
  match files w !! p with
  | Some raw =>
      Ok tt (World (<[p := convert_requires (universal_newlines raw)]> (files w))
                   (out w ++ [require_banner p]))
  | None =>
      Raise FileNotFoundError
            (World (files w) (out w ++ [require_banner p]))
  end.
Proof.
  unfold fix_require_file, bind, print, read_file, write_file. cbn [files out].
  now destruct (files w !! p).
Qed.

Lemma touches_fix_require_file (S : text -> Prop) (p : text) :
  S p -> touches_only S (fix_require_file p).
Proof.
  intros Hp w. rewrite fix_require_file_eq.
  destruct (files w !! p) as [raw|] eqn:E; [|now apply frame_refl].
  cbn [final]. apply frame_insert; [exact Hp | now rewrite E].
Qed.

Lemma group_names_file (rule : text) (errors : list diag) (p : text) (es : list diag) :
  (p, es) ∈ group_by_file (filter (fun e => has_rule rule e = true) errors) ->
  names_file rule errors p.
Proof.
  intros H. apply group_by_file_spec in H as [-> Hne].
  destruct (filter (fun e => d_file e = p) _) as [|e es'] eqn:F; [congruence|].
  assert (He : e ∈ filter (fun e => d_file e = p)
                      (filter (fun e => has_rule rule e = true) errors))
    by (rewrite F; left).
  apply list_elem_of_filter in He as [Hp He].
  apply list_elem_of_filter in He as [Hr He].
  exists e. split; [exact He|]. split; [|exact Hp].
  unfold has_rule in Hr. now apply bool_decide_eq_true in Hr.
Qed.

Lemma touches_fix_unused_vars (errors : list diag) :
  touches_only (names_file unused_rule errors) (fix_unused_vars errors).
Proof.
  unfold fix_unused_vars. apply touches_for_each. intros [p es] H.
  apply touches_fix_unused_file. now apply group_names_file in H.
Qed.

Lemma touches_fix_require_imports (errors : list diag) :
  touches_only (names_file require_rule errors) (fix_require_imports errors).
Proof.
  unfold fix_require_imports. apply touches_for_each. intros [p es] H.
  apply touches_fix_require_file. now apply group_names_file in H.
Qed.

Lemma errors_of_report_elem (data : list file_result) (e : diag) :
  e ∈ errors_of_report data <->
  exists fr m, fr ∈ data /\ m ∈ messages fr /\ severity m = 2%Z /\
               e = Diag (filePath fr) (line m) (ruleId m) (msg_text m).
Proof.
  unfold errors_of_report. rewrite list_elem_of_In, in_flat_map. split.
  - intros (fr & Hfr & H). apply in_flat_map in H as (m & Hm & H).
    destruct (severity m =? 2)%Z eqn:E; [|destruct H].
    destruct H as [<-|[]]. exists fr, m.
    rewrite !list_elem_of_In. apply Z.eqb_eq in E. auto.
  - intros (fr & m & Hfr & Hm & Hs & ->). exists fr.
    rewrite <- list_elem_of_In. split; [exact Hfr|].
    apply in_flat_map. exists m. rewrite <- list_elem_of_In. split; [exact Hm|].
    apply Z.eqb_eq in Hs. rewrite Hs. now left.
Qed.

Lemma names_file_reported (data : list file_result) (rule p : text) :
  names_file rule (errors_of_report data) p <-> reported data rule p.
Proof.
  unfold names_file, reported. split.
  - intros (e & He & Hr & Hp). apply errors_of_report_elem in He
      as (fr & m & Hfr & Hm & Hs & ->). cbn in Hr, Hp. exists fr, m. auto.
  - intros (fr & m & Hfr & Hp & Hm & Hs & Hr).
    exists (Diag (filePath fr) (line m) (ruleId m) (msg_text m)).
    split; [|auto]. apply errors_of_report_elem. exists fr, m. auto.
Qed.

(** X8.  The two patch passes create no file and remove none, and each
    changes only files that a diagnostic of its rule names; this holds
    for a pass that ends with an exception as well. *)
Theorem patch_passes_frame (errors : list diag) :
  touches_only (names_file unused_rule errors) (fix_unused_vars errors) /\
  touches_only (names_file require_rule errors) (fix_require_imports errors).
Proof. split; [apply touches_fix_unused_vars | apply touches_fix_require_imports]. Qed.

(** X9.  A run of [main] creates no file and removes none, and leaves
    every file as it is for which the first report of the linter holds no
    error of severity 2 of one of the two rules: a file with warnings
    only, or with errors of other rules, is not rewritten.  This holds
    whether the run returns or ends with an exception. *)
Theorem eslint_main_frame (eslint : gmap text text -> option (list file_result))
    (w : world) :
  frame (fun p => exists data,
             eslint (files w) = Some data /\
             (reported data unused_rule p \/ reported data require_rule p))
        w (final (FixEslintErrors.main eslint w)).
Proof.
  unfold FixEslintErrors.main.
  rewrite final_bind. unfold print at 1. cbv beta iota.
  rewrite final_bind. unfold get_eslint_errors at 1. cbn [files].
  destruct (eslint (files w)) as [data|] eqn:E; [|now apply frame_refl].
  set (S := fun p => reported data unused_rule p \/ reported data require_rule p).
  apply (frame_weaken S); [intros p Hp; exists data; auto|].
  match goal with
  | |- frame _ _ (final (?m ?w0)) =>
      apply (frame_trans S w w0); [now apply frame_refl|];
      generalize w0; change (touches_only S m)
  end.
  apply touches_bind; [apply touches_print | intros _].
  apply touches_bind.
  { intros w0. eapply frame_weaken; [|apply touches_fix_unused_vars].
    intros p Hp. left. now apply names_file_reported. }
  intros _. apply touches_bind.
  { intros w0. eapply frame_weaken; [|apply touches_fix_require_imports].
    intros p Hp. right. now apply names_file_reported. }
  intros _. apply touches_bind; [apply touches_print | intros _].
  apply touches_bind; [apply touches_get_eslint_errors | intros final_errors].
  apply touches_bind; [apply touches_print | intros _].
  destruct (_ <? _)%nat; [apply touches_print | apply touches_ret].
Qed.

End Frames.

(** ** The parameter script: what a run changes *)

Section ParamRuns.
Import FixUnusedParams UnusedParams.





(** X11.  When [fix_unused_param] reports a fix, the file read back has
    the lines it had, but for the line of the diagnostic, which is the old
    line with underscores put before some of its word characters, and
    differs from it: nothing is deleted, no line is added or joined, and
    nothing is printed. *)
Theorem param_fix_only_inserts (path name : text) (n : Z) (w w1 : world) :
  word_name name ->
  fix_unused_param path n name w = Ok true w1 ->
  exists raw raw1 l l',
    files w !! path = Some raw /\
    files w1 = <[path := raw1]> (files w) /\ out w1 = out w /\
    readlines (universal_newlines raw) !! Z.to_nat (n - 1) = Some l /\
    readlines (universal_newlines raw1) =
      <[Z.to_nat (n - 1) := l']> (readlines (universal_newlines raw)) /\
    ins l l' /\ l' <> l.
Proof.
  intros Hn H.
  destruct (files w !! path) as [raw|] eqn:Hf.
  2:{ unfold fix_unused_param, bind, read_file in H. rewrite Hf in H. discriminate. }
  rewrite (fix_unused_param_eq path name n w raw Hf) in H. cbv zeta in H.
  set (lines := readlines (universal_newlines raw)) in *.
  destruct ((1 <=? n)%Z && (n <=? Z.of_nat (length lines))%Z) eqn:Hr; [|discriminate].
  destruct (lines !! Z.to_nat (n - 1)) as [l|] eqn:Hl; [|discriminate].
  rewrite re_sub_param in H.
  destruct (bool_decide (param_sub name None l <> l)) eqn:Hd; [|discriminate].
  apply bool_decide_eq_true in Hd.
  injection H as <-.
  set (lines' := <[Z.to_nat (n - 1) := param_sub name None l]> lines).
  assert (Hwf : wf_lines lines').
  { apply (word_name_lines name lines _ l Hn); [apply readlines_wf | exact Hl]. }
  assert (Hcr : Forall (fun c => c <> cr) (concat lines')).
  { apply no_cr_concat. apply Forall_insert.
    - apply Forall_concat_readlines, universal_newlines_no_cr.
    - apply (ins_Forall _ l _ underscore_not_cr (sub_ins name Hn l None)).
      assert (Hall : Forall (Forall (fun c => c <> cr)) lines)
        by apply Forall_concat_readlines, universal_newlines_no_cr.
      exact (proj1 (Forall_lookup _ _) Hall _ _ Hl). }
  exists raw, (concat lines'), l, (param_sub name None l).
  split; [reflexivity|]. split; [reflexivity|]. split; [reflexivity|].
  split; [exact Hl|]. split.
  - now rewrite (universal_newlines_id _ Hcr), (readlines_concat _ Hwf).
  - split; [now apply sub_ins | exact Hd].
Qed.

Lemma param_fix_only_inserts_witness :
  exists raw raw1 l l',
    files (demo_world (demo_signature ++ [nl])) !! demo_path = Some raw /\
    files (World (<[demo_path := demo_signature_fixed ++ [nl]]>
                    (files (demo_world (demo_signature ++ [nl])))) [])
      = <[demo_path := raw1]> (files (demo_world (demo_signature ++ [nl]))) /\
    out (World (<[demo_path := demo_signature_fixed ++ [nl]]>
                  (files (demo_world (demo_signature ++ [nl])))) [])
      = out (demo_world (demo_signature ++ [nl])) /\
    readlines (universal_newlines raw) !! Z.to_nat (1 - 1) = Some l /\
    readlines (universal_newlines raw1) =
      <[Z.to_nat (1 - 1) := l']> (readlines (universal_newlines raw)) /\
    ins l l' /\ l' <> l.
Proof.
  apply (param_fix_only_inserts demo_path (T "unused") 1
           (demo_world (demo_signature ++ [nl]))).
  - split; [discriminate | repeat constructor].
  - rewrite (fix_unused_param_eq demo_path (T "unused") 1 _ (demo_signature ++ [nl]))
      by reflexivity.
    vm_compute. reflexivity.
Defined.

(** X12.  Of a line of the stream in the expected format only the path,
    the line number and the name are used: the column, and whatever
    follows the final full stop, make no difference to what the script
    does with the line. *)
Theorem column_is_ignored (path ds cs cs' name tail tail' : text) (k : nat) (w : world) :
  nonempty path -> all_in is_dot path -> Forall (fun c => c <> "("%char) path ->
  nonempty ds -> all_in is_digit ds ->
  nonempty cs -> all_in is_digit cs ->
  nonempty cs' -> all_in is_digit cs' ->
  word_name name ->
  process_line k (diag_line path ds cs name tail) w =
  process_line k (diag_line path ds cs' name tail') w.
Proof.
  intros Hp1 Hp2 Hp3 Hd1 Hd2 Hc1 Hc2 Hc1' Hc2' Hn. unfold process_line.
  rewrite (re_match_diag_line path ds cs name tail) by assumption.
  rewrite (re_match_diag_line path ds cs' name tail') by assumption.
  reflexivity.
Qed.

Lemma column_is_ignored_witness :
  process_line 0 (diag_line demo_path (T "1") (T "18") (T "unused") [nl])
               (demo_world (demo_signature ++ [nl])) =
  process_line 0 (diag_line demo_path (T "1") (T "5") (T "unused") (T " (extra)"))
               (demo_world (demo_signature ++ [nl])).
Proof.
  apply (column_is_ignored demo_path (T "1") (T "18") (T "5") (T "unused") [nl]
           (T " (extra)") 0 (demo_world (demo_signature ++ [nl])));
    try discriminate; try (repeat constructor; fail).
  - repeat apply Forall_cons_2; try apply Forall_nil_2; discriminate.
  - split; [discriminate | repeat constructor].
Defined.

End ParamRuns.

(** ** The require-to-import pass: files, line ends and quote characters *)

Section RequirePass.

Lemma bind_ret_tt (m : M unit) (w : world) : bind m (fun _ => ret tt) w = m w.
Proof. unfold bind, ret. destruct (m w) as [[] w'|e w']; reflexivity. Qed.

Lemma group_by_file_single (p : text) (l : list diag) :
  l <> [] -> Forall (fun e => d_file e = p) l -> group_by_file l = [(p, l)].
Proof.
  induction l as [|e l IH] using rev_ind; [congruence|]. intros _ H.
  apply Forall_app in H as [Hl He]. apply Forall_cons in He as [He _].
  rewrite group_by_file_snoc, He.
  destruct l as [|e0 l]; [reflexivity|].
  rewrite IH by (discriminate || exact Hl).
  cbn [dict_append]. now rewrite bool_decide_eq_true_2.
Qed.

Lemma filter_rule_single (rule p : text) (errors : list diag) :
  names_file rule errors p ->
  (forall q, names_file rule errors q -> q = p) ->
  group_by_file (filter (fun e => has_rule rule e = true) errors)
  = [(p, filter (fun e => has_rule rule e = true) errors)].
Proof.
  intros (e & He & Hr & Hp) Hall. apply group_by_file_single.
  - intros E. assert (Hin : e ∈ filter (fun e => has_rule rule e = true) errors).
    { apply list_elem_of_filter. split; [|exact He].
      unfold has_rule. now apply bool_decide_eq_true. }
    rewrite E in Hin. inversion Hin.
  - apply Forall_forall. intros e' He'. apply list_elem_of_filter in He' as [Hr' He'].
    apply Hall. exists e'. split; [exact He'|]. split; [|reflexivity].
    unfold has_rule in Hr'. now apply bool_decide_eq_true in Hr'.
Qed.

Lemma filter_rule_none (rule : text) (errors : list diag) :
  (forall e, e ∈ errors -> d_rule e <> Some rule) ->
  filter (fun e => has_rule rule e = true) errors = [].
Proof.
  intros H. induction errors as [|e errors IH]; [reflexivity|].
  rewrite filter_cons_False.
  - apply IH. intros e' He'. apply H. now right.
  - unfold has_rule. intros Hr. apply bool_decide_eq_true in Hr.
    apply (H e); [left | exact Hr].
Qed.

(** X13.  A file is opened and written once per pass, however many
    diagnostics of the rule name it: when all the diagnostics of a rule
    are for one file, the pass is the patch of that file with all of
    them.  The substitutions of the require pass, which would not leave
    an awaited import alone a second time, are thus applied once. *)
Theorem one_file_one_write (p : text) (errors : list diag) (w : world) :
  (forall q, names_file unused_rule errors q -> q = p) ->
  (forall q, names_file require_rule errors q -> q = p) ->
  (names_file unused_rule errors p ->
   fix_unused_vars errors w =
     fix_unused_file p (filter (fun e => has_rule unused_rule e = true) errors) w) /\
  (names_file require_rule errors p ->
   fix_require_imports errors w = fix_require_file p w).
Proof.
  intros Hu Hr. split; intros Hp.
  - unfold fix_unused_vars. cbv zeta. rewrite (filter_rule_single _ p) by assumption.
    cbn [for_each]. apply bind_ret_tt.
  - unfold fix_require_imports. cbv zeta. rewrite (filter_rule_single _ p) by assumption.
    cbn [for_each]. apply bind_ret_tt.
Qed.

Lemma one_file_one_write_witness :
  (names_file unused_rule [demo_unused 1; demo_unused 2] demo_path ->
   fix_unused_vars [demo_unused 1; demo_unused 2] (demo_world two_vars) =
     fix_unused_file demo_path
       (filter (fun e => has_rule unused_rule e = true) [demo_unused 1; demo_unused 2])
       (demo_world two_vars)) /\
  (names_file require_rule [demo_unused 1; demo_unused 2] demo_path ->
   fix_require_imports [demo_unused 1; demo_unused 2] (demo_world two_vars) =
     fix_require_file demo_path (demo_world two_vars)).
Proof.
  apply (one_file_one_write demo_path [demo_unused 1; demo_unused 2] (demo_world two_vars)).
  - intros q (e & He & _ & Hq). subst q.
    repeat (apply elem_of_cons in He as [->|He]); try reflexivity. inversion He.
  - intros q (e & He & _ & Hq). subst q.
    repeat (apply elem_of_cons in He as [->|He]); try reflexivity. inversion He.
Defined.

(** X14.  A pass for which the report holds no diagnostic of its rule
    does nothing at all: no file is opened and nothing is printed,
    whatever the files contain. *)
Theorem no_diagnostic_no_patch (errors : list diag) (w : world) :
  ((forall e, e ∈ errors -> d_rule e <> Some unused_rule) ->
   fix_unused_vars errors w = Ok tt w) /\
  ((forall e, e ∈ errors -> d_rule e <> Some require_rule) ->
   fix_require_imports errors w = Ok tt w).
Proof.
  split; intros H.
  - unfold fix_unused_vars. cbv zeta. now rewrite filter_rule_none.
  - unfold fix_require_imports. cbv zeta. now rewrite filter_rule_none.
Qed.

(** *** Characters of the result *)

Lemma caps_in_group (P : ascii -> Prop) (i : nat) (cs : caps) :
  caps_in P cs -> Forall P (group i cs).
Proof.
  induction 1 as [|[j s] cs Hs Hcs IH]; cbn [group]; [constructor|].
  destruct (i =? j)%nat; [exact Hs | exact IH].
Qed.

Lemma expand_in (P : ascii -> Prop) (tpl : list titem) (cs : caps) :
  tpl_in P tpl -> caps_in P cs -> Forall P (expand tpl cs).
Proof.
  intros Ht Hc. unfold expand.
  induction Ht as [|it tpl Hit Ht IH]; cbn [map concat]; [constructor|].
  apply Forall_app. split; [|exact IH].
  destruct it; [exact Hit | now apply caps_in_group].
Qed.

Lemma go_caps_in (P : ascii -> Prop) (r : re) :
  forall prev (s : text) cs k st,
    go r prev s cs k = Some st -> Forall P s -> caps_in P cs ->
    exists prev' s' cs', k prev' s' cs' = Some st /\ Forall P s' /\ caps_in P cs'.
Proof.
  induction r as [|c|p|p min g|r1 IH1 r2 IH2|i r1 IH1| | | |r1 IH1];
    intros prev s cs k st H Hs Hc; cbn [go] in H.
  - eauto 10.
  - destruct s as [|x s]; [discriminate|].
    destruct (chr_eqb x c); [|discriminate].
    apply Forall_cons in Hs as [_ Hs]. eauto 10.
  - destruct s as [|x s]; [discriminate|].
    destruct (p x); [|discriminate].
    apply Forall_cons in Hs as [_ Hs]. eauto 10.
  - apply rep_sound in H as (u & s' & -> & _ & _ & Hk).
    apply Forall_app in Hs as [_ Hs]. eauto 10.
  - apply IH1 in H as (pm & sm & cm & H & Hsm & Hcm); [|assumption..].
    apply IH2 in H as (p' & s' & cs' & H & Hs' & Hc'); [|assumption..].
    eauto 10.
  - apply IH1 in H as (p' & s' & cs' & H & Hs' & Hc'); [|assumption..].
    exists p', s', ((i, take (length s - length s') s) :: cs').
    split; [exact H|]. split; [exact Hs'|].
    constructor; [|exact Hc']. cbn [snd]. now apply Forall_take.
  - destruct prev; [discriminate|]. eauto 10.
  - destruct (at_eol s); [|discriminate]. eauto 10.
  - destruct (at_boundary prev s); [|discriminate]. eauto 10.
  - destruct (go r1 prev s cs _) as [st1|] eqn:E; [|discriminate].
    apply IH1 in E as (p2 & s2 & c2 & E & _ & Hc2); [|assumption..].
    injection E as <-. cbn [m_caps] in H. eauto 10.
Qed.

Lemma try_match_caps_in (P : ascii -> Prop) (r : re) adv prev (s : text) n cs :
  try_match r adv prev s = Some (n, cs) -> Forall P s -> caps_in P cs.
Proof.
  unfold try_match. intros H Hs.
  destruct (go r prev s [] _) as [st|] eqn:E; [|discriminate].
  injection H as _ <-.
  apply (go_caps_in P) in E as (p' & s' & cs' & Hk & _ & Hc); [|exact Hs|constructor].
  destruct (adv && _); [discriminate|]. now injection Hk as <-.
Qed.

Lemma sub_at_in (P : ascii -> Prop) (r : re) (tpl : list titem) (s : text) :
  tpl_in P tpl -> Forall P s ->
  forall skip prev, Forall P (sub_at r tpl skip prev s).
Proof.
  intros Ht Hs. induction Hs as [|c s Hc Hs IH]; intros skip prev.
  - destruct skip as [|n]; cbn [sub_at]; [|constructor].
    destruct (try_match r false prev []) as [[[|n] cs]|] eqn:E; [| |constructor].
    + apply Forall_app. split.
      { apply expand_in; [exact Ht|].
        now apply (try_match_caps_in P _ _ _ _ _ _ E). }
      destruct (try_match r true prev []) as [[[|n'] cs']|] eqn:E'; try constructor.
      rewrite app_nil_r. apply expand_in; [exact Ht|].
      now apply (try_match_caps_in P _ _ _ _ _ _ E').
    + rewrite app_nil_r. apply expand_in; [exact Ht|].
      now apply (try_match_caps_in P _ _ _ _ _ _ E).
  - assert (Hcs : Forall P (c :: s)) by now constructor.
    destruct skip as [|n]; cbn [sub_at]; [|apply IH].
    destruct (try_match r false prev (c :: s)) as [[[|n] cs]|] eqn:E.
    + apply Forall_app. split.
      { apply expand_in; [exact Ht|].
        now apply (try_match_caps_in P _ _ _ _ _ _ E). }
      destruct (try_match r true prev (c :: s)) as [[[|n'] cs']|] eqn:E'.
      * constructor; [exact Hc | apply IH].
      * apply Forall_app. split; [|apply IH].
        apply expand_in; [exact Ht|].
        now apply (try_match_caps_in P _ _ _ _ _ _ E').
      * constructor; [exact Hc | apply IH].
    + apply Forall_app. split; [|apply IH].
      apply expand_in; [exact Ht|].
      now apply (try_match_caps_in P _ _ _ _ _ _ E).
    + constructor; [exact Hc | apply IH].
Qed.

Lemma convert_requires_in (P : ascii -> Prop) (s : text) :
  tpl_in P tpl_require -> tpl_in P tpl_require_braces -> tpl_in P tpl_dynamic_import ->
  Forall P s -> Forall P (convert_requires s).
Proof.
  intros H1 H2 H3 Hs. unfold convert_requires, require_patterns, re_sub.
  cbn [foldl fst snd]. auto using sub_at_in.
Qed.

Lemma convert_requires_no_cr (s : text) :
  Forall (fun c => c <> cr) s -> Forall (fun c => c <> cr) (convert_requires s).
Proof.
  apply convert_requires_in;
    repeat (apply Forall_cons_2 || apply Forall_nil_2); try exact I;
    repeat (apply Forall_cons_2 || apply Forall_nil_2); discriminate.
Qed.

Lemma convert_requires_few_quotes (s : text) : nquotes s <= 1 -> convert_requires s = s.
Proof.
  intros H. unfold convert_requires, require_patterns, re_sub. cbn [foldl fst snd].
  rewrite (sub_at_few_quotes pat_require _ s require_two_quotes H).
  rewrite (sub_at_few_quotes pat_require_braces _ s require_braces_two_quotes H).
  apply (sub_at_few_quotes pat_dynamic_import _ s dynamic_import_two_quotes H).
Qed.

(** X15.  Both passes write a file they open with line feeds only: every
    CR LF and every lone CR of the file is a line feed in the result,
    also where no pattern applies.  A file with a carriage return is
    therefore changed by the pass that opens it, and in a file with at
    most one quote character the line ends are all that the require pass
    changes. *)
Theorem rewritten_files_have_line_feeds (p : text) (w : world) (raw : text) :
  files w !! p = Some raw ->
  (forall es w',
     fix_unused_file p es w = Ok tt w' ->
     exists c, files w' !! p = Some c /\ Forall (fun x => x <> cr) c) /\
  (exists c,
     fix_require_file p w =
       Ok tt (World (<[p := c]> (files w)) (out w ++ [require_banner p])) /\
     Forall (fun x => x <> cr) c /\
     (nquotes (universal_newlines raw) <= 1 -> c = universal_newlines raw)).
Proof.
  intros Hf. split.
  - intros es w' H. rewrite fix_unused_file_eq, Hf in H.
    destruct (patch_lines _ _) as [lines|] eqn:E; [|discriminate].
    injection H as <-. exists (concat lines). cbn [files].
    split; [apply lookup_insert_eq|].
    apply no_cr_concat. apply (patch_lines_no_cr _ _ _ E).
    apply Forall_concat_readlines, universal_newlines_no_cr.
  - exists (convert_requires (universal_newlines raw)).
    split; [now rewrite fix_require_file_eq, Hf|].
    split; [apply convert_requires_no_cr, universal_newlines_no_cr|].
    apply convert_requires_few_quotes.
Qed.

Lemma rewritten_files_have_line_feeds_witness :
  (forall es w',
     fix_unused_file demo_path es (demo_world (T "foo();" ++ [cr; nl])) = Ok tt w' ->
     exists c, files w' !! demo_path = Some c /\ Forall (fun x => x <> cr) c) /\
  (exists c,
     fix_require_file demo_path (demo_world (T "foo();" ++ [cr; nl])) =
       Ok tt (World (<[demo_path := c]> (files (demo_world (T "foo();" ++ [cr; nl]))))
                    (out (demo_world (T "foo();" ++ [cr; nl])) ++ [require_banner demo_path])) /\
     Forall (fun x => x <> cr) c /\
     (nquotes (universal_newlines (T "foo();" ++ [cr; nl])) <= 1 ->
      c = universal_newlines (T "foo();" ++ [cr; nl]))).
Proof.
  apply (rewritten_files_have_line_feeds demo_path (demo_world (T "foo();" ++ [cr; nl]))
           (T "foo();" ++ [cr; nl])).
  reflexivity.
Defined.

End RequirePass.

(** ** Rule (a) on any plain require statement *)

Section PlainRequire.

Ltac assoc_eq := repeat (progress (simpl; rewrite <- ?app_assoc)); reflexivity.

Lemma word_not_space (c : ascii) : is_word c = true -> is_space c = false.
Proof. intros H. by_cases_on_char c. Qed.

Lemma quote_not_not_quote (c : ascii) : quote c = true -> not_quote c = false.
Proof. unfold not_quote, none_of, quote. now intros ->. Qed.

Lemma stops_after (p q : ascii -> bool) (u : text) (d : ascii) (v : text) :
  all_in q u -> (forall c, q c = true -> p c = false) -> p d = false ->
  stops p (u ++ d :: v).
Proof.
  intros Hu Hq Hd. destruct Hu as [|c u Hc Hu]; cbn [app stops]; auto.
Qed.

Lemma stops_word_name (name rest : text) : word_name name -> stops is_space (name ++ rest).
Proof.
  intros [Hne Hw]. destruct Hw as [|c name Hc Hw]; [congruence|].
  cbn [app stops]. now apply word_not_space.
Qed.

Lemma require_of_match prev (s1 name s2 s3 : text) (q : ascii) (m : text) (q' : ascii)
    (post : text) :
  all_in is_space s1 -> nonempty s1 -> word_name name ->
  all_in is_space s2 -> all_in is_space s3 ->
  quote q = true -> nonempty m -> all_in not_quote m -> quote q' = true ->
  try_match pat_require false prev (require_of s1 name s2 s3 q m q' ++ post)
  = Some (length (require_of s1 name s2 s3 q m q'), [(2, m); (1, name)]).
Proof.
  intros Hs1 Hn1 Hname Hs2 Hs3 Hq Hm1 Hm2 Hq'.
  apply (try_match_ok _ _ _ _ (Some ")"%char)).
  replace (require_of s1 name s2 s3 q m q' ++ post)
    with (T "const" ++ s1 ++ name ++ s2 ++ "="%char :: s3 ++ T "require("
          ++ q :: m ++ q' :: ")"%char :: post)
    by (unfold require_of; assoc_eq).
  unfold pat_require, many1, many.
  rewrite go_cat_cons, go_lit, strip_app, go_cat_cons.
  apply go_rep_greedy;
    [exact Hs1 | now apply stops_word_name | now apply nonempty_length|].
  rewrite go_cat_cons.
  apply go_grp_greedy;
    [exact (proj2 Hname)
    | apply (stops_after is_word is_space); [exact Hs2 | exact space_not_word | reflexivity]
    | apply nonempty_length; exact (proj1 Hname) |].
  rewrite go_cat_cons.
  apply go_rep_greedy; [exact Hs2 | reflexivity | lia|].
  rewrite go_cat_cons, go_chr, go_cat_cons.
  apply go_rep_greedy; [exact Hs3 | reflexivity | lia|].
  rewrite go_cat_cons, go_lit, strip_app, go_cat_cons, go_cls by exact Hq.
  rewrite go_cat_cons.
  apply go_grp_greedy;
    [exact Hm2 | cbn [stops]; now apply quote_not_not_quote | now apply nonempty_length|].
  rewrite go_cat_cons, go_cls by exact Hq'.
  rewrite go_cat_cons, go_chr, go_cat_nil. reflexivity.
Qed.

(** A rule whose matches begin a fixed way before their first quote
    character leaves a text with two quote characters alone when the text
    before the first of them does not end that way. *)
Lemma two_quote_noop (r : re) tpl (bad : text -> Prop) (A : text) (x : ascii) (B : text) :
  (forall adv p v n cs, try_match r adv p v = Some (n, cs) -> 2 <= nquotes v) ->
  (forall adv p w y rest n cs,
     nquotes w = 0 -> quote y = true -> nquotes rest <= 1 ->
     try_match r adv p (w ++ y :: rest) = Some (n, cs) -> bad w) ->
  nquotes A = 0 -> quote x = true -> nquotes B <= 1 ->
  (forall u w, A = u ++ w -> ~ bad w) ->
  re_sub r tpl (A ++ x :: B) = A ++ x :: B.
Proof.
  intros Htwo Hfirst HA Hx HB Hbad. unfold re_sub. rewrite sub_at_copy_gen.
  - rewrite sub_at_nomatch.
    + now rewrite (sub_at_few_quotes _ _ _ Htwo HB).
    + destruct (try_match r false (last_of None A) (x :: B)) as [[n cs]|] eqn:E;
        [|reflexivity].
      exfalso. apply (Hbad A []); [now rewrite app_nil_r|].
      apply (Hfirst false (last_of None A) [] x B n cs); auto.
  - intros u1 u2 p E Hne.
    destruct (try_match r false p (u2 ++ x :: B)) as [[n cs]|] eqn:Em; [|reflexivity].
    exfalso. apply (Hbad u1 u2 E).
    apply (Hfirst false p u2 x B n cs); auto.
    rewrite E, nquotes_app in HA. lia.
Qed.

Lemma ends_with_space_clash (a b : text) (c : ascii) (t : text) :
  c <> " "%char -> a ++ [" "%char] = b ++ t ++ [c] -> False.
Proof.
  intros Hc E. rewrite app_assoc in E.
  apply app_inj_2 in E as [_ E]; [|reflexivity]. congruence.
Qed.

(** X16.  Rule (a) on any plain require statement: a statement
    [const NAME = require(qMODULEq')] with any white space around the name
    and the equals sign, and with each of [q] and [q'] a single or a
    double quote, becomes [import NAME from "MODULE"] with single spaces
    and double quotes, and the two later rules leave the result alone.
    The text before it holds no [const] and no quote character, the text
    after it no quote character. *)
Theorem plain_require_becomes_import (pre s1 name s2 s3 : text) (q : ascii) (m : text)
    (q' : ascii) (post : text) :
  absent (T "const") pre -> all_in not_quote pre ->
  all_in is_space s1 -> nonempty s1 -> word_name name ->
  all_in is_space s2 -> all_in is_space s3 ->
  quote q = true -> nonempty m -> all_in not_quote m -> quote q' = true ->
  all_in not_quote post ->
  convert_requires (pre ++ require_of s1 name s2 s3 q m q' ++ post)
  = pre ++ import_of name m ++ post.
Proof.
  intros Hab Hpre Hs1 Hn1 Hname Hs2 Hs3 Hq Hm1 Hm2 Hq' Hpost.
  assert (Zpre : nquotes pre = 0) by now apply nquotes_none.
  assert (Zpost : nquotes post = 0) by now apply nquotes_none.
  assert (Zm : nquotes m = 0) by now apply nquotes_none.
  assert (Zname : nquotes name = 0)
    by (apply (nquotes_class is_word); [exact word_not_quote | exact (proj2 Hname)]).
  unfold convert_requires, require_patterns. cbn [foldl fst snd].
  assert (E1 : re_sub pat_require tpl_require
                 (pre ++ require_of s1 name s2 s3 q m q' ++ post)
               = pre ++ import_of name m ++ post).
  { unfold re_sub. unfold pat_require at 1.
    rewrite (sub_at_before (T "const")).
    - fold pat_require.
      rewrite (sub_at_match _ _ _ _ _ [(2, m); (1, name)]).
      + rewrite (sub_at_few_quotes _ _ post require_two_quotes) by lia.
        unfold expand, tpl_require, import_of. f_equal; assoc_eq.
      + unfold require_of. discriminate.
      + now apply require_of_match.
    - exact Hab.
    - intros j Hj. unfold require_of.
      destruct j as [|[|[|[|[|j]]]]]; simpl in Hj; try lia; reflexivity. }
  rewrite E1.
  set (A := pre ++ T "import " ++ name ++ T " from ").
  assert (EA : pre ++ import_of name m ++ post = A ++ dq :: (m ++ dq :: post))
    by (unfold A, import_of; assoc_eq).
  assert (ZA : nquotes A = 0).
  { unfold A. rewrite !nquotes_app, Zpre, Zname. reflexivity. }
  assert (ZB : nquotes (m ++ dq :: post) <= 1).
  { rewrite nquotes_app, Zm. simpl. rewrite Zpost. lia. }
  assert (Hend : forall u t c, c <> " "%char -> A = u ++ t ++ [c] -> False).
  { intros u t c Hc E. apply (ends_with_space_clash (pre ++ T "import " ++ name ++ T " from")
                                 u c t Hc).
    rewrite <- E. unfold A. assoc_eq. }
  rewrite EA.
  rewrite (two_quote_noop pat_require_braces _ (fun w => exists w0, w = w0 ++ T "require("));
    [| exact require_braces_two_quotes
     | intros; eapply require_braces_first_quote; eassumption
     | exact ZA | reflexivity | exact ZB |].
  2:{ intros u w E [w0 ->].
      apply (Hend u (w0 ++ T "require") "("%char); [discriminate|].
      rewrite E. assoc_eq. }
  apply (two_quote_noop pat_dynamic_import _ (fun w => w = T "import("));
    [ exact dynamic_import_two_quotes
    | intros; eapply dynamic_import_first_quote; eassumption
    | exact ZA | reflexivity | exact ZB |].
  intros u w E ->.
  apply (Hend u (T "import") "("%char); [discriminate|].
  rewrite E. assoc_eq.
Qed.

Lemma plain_require_becomes_import_witness :
  convert_requires ((T "let n = f(1);" ++ [nl])
                    ++ require_of (T "  ") (T "fs") [] (T " ") sq (T "node:fs") dq
                    ++ T ";" ++ [nl])
  = (T "let n = f(1);" ++ [nl]) ++ import_of (T "fs") (T "node:fs") ++ T ";" ++ [nl].
Proof.
  apply (plain_require_becomes_import (T "let n = f(1);" ++ [nl]) (T "  ") (T "fs") []
           (T " ") sq (T "node:fs") dq (T ";" ++ [nl]));
    try reflexivity; try discriminate;
    try (repeat apply Forall_cons_2; try apply Forall_nil_2; reflexivity).
  split; [discriminate | repeat apply Forall_cons_2; try apply Forall_nil_2; reflexivity].
Defined.

End PlainRequire.

(** ** A run that a patch pass ends *)

Section Abort.





End Abort.
